(** * ZP7: a portable PEXT/PDEP polyfill (zp7.c), embedded and verified

    The C code works on [uint64_t].  A 64-bit word is modelled as an integer
    of [Z] in the range [0 <= x < 2^64]; every operation that can leave the
    range in C (complement, left shift, subtraction, addition,
    multiplication) has its wrap-around written out with [wrap]. *)

From Stdlib Require Import ZArith List Lia Bool Arith.
Import ListNotations.

Local Open Scope Z_scope.
Local Open Scope bool_scope.

(** ** 64-bit unsigned arithmetic *)

Module U64.

Definition wrap (x : Z) : Z := x mod 2 ^ 64.

Definition in_range (x : Z) : Prop := 0 <= x < 2 ^ 64.

(** [~x] *)
Definition not (x : Z) : Z := wrap (Z.lnot x).

(** [x << n].  A shift count of 64 or more is undefined in C; the code's own
    comment relies on the x86 behaviour (count taken modulo 64), which is
    what is modelled. *)
Definition shl (x n : Z) : Z := wrap (Z.shiftl x (n mod 64)).

(** [x >> n] *)
Definition shr (x n : Z) : Z := Z.shiftr x (n mod 64).

Definition add (x y : Z) : Z := wrap (x + y).
Definition sub (x y : Z) : Z := wrap (x - y).
Definition mul (x y : Z) : Z := wrap (x * y).

End U64.

(** ** The program *)

(** [#define N_BITS (6)] *)
Definition N_BITS : nat := 6.

(** [typedef struct { uint64_t mask; uint64_t ppp_bit[N_BITS]; } zp7_masks_64_t;] *)
Record zp7_masks_64_t : Type := {
  mask : Z;
  ppp_bit : list Z
}.

(** [for (int i = 0; i < N_BITS; i++) x ^= x << (1 << i);] *)
Definition prefix_sum_step (x : Z) (i : nat) : Z :=
  Z.lxor x (U64.shl x (Z.shiftl 1 (Z.of_nat i))).

Definition prefix_sum (x : Z) : Z :=
  fold_left prefix_sum_step (seq 0 N_BITS) x.

(** The SWAR population count (the build without HAS_POPCNT). *)
Definition popcnt_64 (x : Z) : Z :=
  let m_1 := 0x5555555555555555 in
  let m_2 := 0x3333333333333333 in
  let m_4 := 0x0f0f0f0f0f0f0f0f in
  let x := U64.sub x (Z.land (U64.shr x 1) m_1) in
  let x := U64.add (Z.land x m_2) (Z.land (U64.shr x 2) m_2) in
  let x := Z.land (U64.add x (U64.shr x 4)) m_4 in
  U64.shr (U64.mul x 0x0101010101010101) 56.

(** The loop of [zp7_ppp_64] (the build without HAS_CLMUL): [n] iterations
    remain, [m] is the running (complemented) mask, and the planes are
    produced in the order [ppp_bit[i]] are stored. *)
Fixpoint ppp_loop (n : nat) (m : Z) : list Z :=
  match n with
  | O => []
  | S n' =>
      let bit := U64.shl (prefix_sum m) 1 in
      bit :: ppp_loop n' (Z.land m bit)
  end.

Definition zp7_ppp_64 (mask : Z) : zp7_masks_64_t :=
  {| mask := mask; ppp_bit := ppp_loop N_BITS (U64.not mask) |}.

(** PEXT *)

Definition pext_step (masks : zp7_masks_64_t) (a : Z) (i : nat) : Z :=
  let shift := Z.shiftl 1 (Z.of_nat i) in
  let bit := nth i (ppp_bit masks) 0 in
  Z.lor (Z.land a (U64.not bit)) (U64.shr (Z.land a bit) shift).

Definition zp7_pext_pre_64 (a : Z) (masks : zp7_masks_64_t) : Z :=
  fold_left (pext_step masks) (seq 0 N_BITS) (Z.land a (mask masks)).

Definition zp7_pext_64 (a mask : Z) : Z :=
  zp7_pext_pre_64 a (zp7_ppp_64 mask).

(** PDEP *)

(** [(1ULL << popcnt) & ~(popcnt >> 6)], then [a &= pop_mask - 1]
    (the build without HAS_BZHI). *)
Definition pop_mask (popcnt : Z) : Z :=
  Z.land (U64.shl 1 popcnt) (U64.not (U64.shr popcnt 6)).

Definition pdep_premask (a popcnt : Z) : Z :=
  Z.land a (U64.sub (pop_mask popcnt) 1).

(** The two terms of the sum in the loop body, and the body itself. *)
Definition pdep_bit (masks : zp7_masks_64_t) (i : nat) : Z :=
  U64.shr (nth i (ppp_bit masks) 0) (Z.shiftl 1 (Z.of_nat i)).

Definition pdep_stay (masks : zp7_masks_64_t) (a : Z) (i : nat) : Z :=
  Z.land a (U64.not (pdep_bit masks i)).

Definition pdep_move (masks : zp7_masks_64_t) (a : Z) (i : nat) : Z :=
  U64.shl (Z.land a (pdep_bit masks i)) (Z.shiftl 1 (Z.of_nat i)).

Definition pdep_step (masks : zp7_masks_64_t) (a : Z) (i : nat) : Z :=
  U64.add (pdep_stay masks a i) (pdep_move masks a i).

(** [for (int i = N_BITS - 1; i >= 0; i--)] *)
Definition zp7_pdep_pre_64 (a : Z) (masks : zp7_masks_64_t) : Z :=
  fold_left (pdep_step masks) (rev (seq 0 N_BITS))
    (pdep_premask a (popcnt_64 (mask masks))).

Definition zp7_pdep_64 (a mask : Z) : Z :=
  zp7_pdep_pre_64 a (zp7_ppp_64 mask).

(** ** The HAS_CLMUL build of [zp7_ppp_64] *)

(** Modelled from the spec: the carry-less multiply of two 64-bit operands
    ([_mm_clmulepi64_si128] with selector 0) is a processor instruction, not
    code of the repository: the product in GF(2)[x], the XOR of the copies of
    [x] shifted to the set bits of [y].  The result has up to 127 bits. *)
Definition clmul_step (x y : Z) (acc : Z) (i : nat) : Z :=
  if Z.testbit y (Z.of_nat i) then Z.lxor acc (Z.shiftl x (Z.of_nat i)) else acc.

Definition clmul (x y : Z) : Z :=
  fold_left (clmul_step x y) (seq 0 64) 0.

(** [_mm_cvtsi64_si128(-2LL)]: the low half holds the bit pattern of -2 and
    the high half is zero. *)
Definition neg_2 : Z := U64.wrap (-2).

(** The loop on the 128-bit register [m]: the multiply reads the low halves
    of its operands, [_mm_cvtsi128_si64] keeps the low half of the product,
    and [_mm_and_si128] is a 128-bit AND. *)
Fixpoint ppp_loop_clmul (n : nat) (m : Z) : list Z :=
  match n with
  | O => []
  | S n' =>
      let bit := clmul (U64.wrap m) (U64.wrap neg_2) in
      U64.wrap bit :: ppp_loop_clmul n' (Z.land m bit)
  end.

Definition zp7_ppp_64_clmul (mask : Z) : zp7_masks_64_t :=
  {| mask := mask; ppp_bit := ppp_loop_clmul N_BITS (U64.not mask) |}.

(** ** Reference semantics *)

(** Bit [b] of a word, as a predicate on positions. *)
Definition bit_of (x : Z) (b : nat) : bool := Z.testbit x (Z.of_nat b).

(** Number of positions below [b] that satisfy [f]. *)
Fixpoint count_below (f : nat -> bool) (b : nat) : nat :=
  match b with
  | O => O
  | S b' => count_below f b' + (if f b' then 1 else 0)
  end.

(** Number of set bits among the 64 bits of [x]. *)
Definition popcount (x : Z) : nat := count_below (bit_of x) 64.

(** Number of positions strictly below [b] at which [mask] is unset. *)
Definition unset_below (mask : Z) (b : nat) : nat :=
  count_below (fun j => negb (bit_of mask j)) b.

(** Number of positions strictly below [b] at which [mask] is set. *)
Definition set_below (mask : Z) (b : nat) : nat :=
  count_below (bit_of mask) b.

(** The PEXT instruction, as its manual describes it: scan the mask from
    bit 0 upwards; each set mask bit sends the source bit at that position to
    the next free destination bit [k]. *)
Definition pext_ref_step (a mask : Z) (st : nat * Z) (m : nat) : nat * Z :=
  let '(k, dest) := st in
  if bit_of mask m
  then (S k, if bit_of a m then Z.setbit dest (Z.of_nat k) else dest)
  else (k, dest).

Definition pext_ref (a mask : Z) : Z :=
  snd (fold_left (pext_ref_step a mask) (seq 0 64) (O, 0)).

(** The PDEP instruction: each set mask bit receives the next source
    bit [k]. *)
Definition pdep_ref_step (a mask : Z) (st : nat * Z) (m : nat) : nat * Z :=
  let '(k, dest) := st in
  if bit_of mask m
  then (S k, if bit_of a k then Z.setbit dest (Z.of_nat m) else dest)
  else (k, dest).

Definition pdep_ref (a mask : Z) : Z :=
  snd (fold_left (pdep_ref_step a mask) (seq 0 64) (O, 0)).

(** Exclusive or of [f j] over the positions [j < n]. *)
Fixpoint xor_below (f : nat -> bool) (n : nat) : bool :=
  match n with
  | O => false
  | S n' => xorb (xor_below f n') (f n')
  end.

(** A counter starts at 0 and grows by at most one per position. *)
Definition counter (g : nat -> nat) : Prop :=
  g O = O /\ forall j, g (S j) = g j \/ g (S j) = S (g j).

(** The positions at which a counter grows. *)
Definition grows (g : nat -> nat) (j : nat) : bool := negb (g (S j) =? g j)%nat.

(** After the shifts by [1, 2, ..., 2^(i-1)] of the gather loop, the bit that
    started at position [j] has moved down by the low [i] digits of the
    number of unset mask bits below it. *)
Definition pos (mask : Z) (i j : nat) : nat :=
  (j - unset_below mask j mod 2 ^ i)%nat.

(** [x] holds exactly the bits selected by [mask] and [src], each at its
    position after [i] shifts. *)
Definition placed (mask : Z) (src : nat -> bool) (i : nat) (x : Z) : Prop :=
  U64.in_range x /\
  forall q, bit_of x q = true <->
    exists j, (j < 64)%nat /\ bit_of mask j = true /\ src j = true /\
              q = pos mask i j.

(** A word read as its little-endian bytes, for the byte-wise analysis of the
    SWAR population count. *)
Fixpoint bytes_val (bs : list Z) : Z :=
  match bs with
  | [] => 0
  | b :: bs' => b + 256 * bytes_val bs'
  end.

Fixpoint bytes_of (n : nat) (x : Z) : list Z :=
  match n with
  | O => []
  | S n' => x mod 256 :: bytes_of n' (x / 256)
  end.

Definition is_byte (b : Z) : Prop := 0 <= b < 256.

(** What the three masking steps of [popcnt_64] do to one byte. *)
Definition swar1 (b : Z) : Z := b - Z.land (Z.shiftr b 1) 0x55.
Definition swar2 (b : Z) : Z := Z.land b 0x33 + Z.land (Z.shiftr b 2) 0x33.
Definition swar3 (b : Z) : Z := Z.land (b + Z.shiftr b 4) 0x0f.

(** Both nibbles of a byte hold a count of at most 4. *)
Definition nibbles_ok (b : Z) : Prop := 0 <= b /\ b mod 16 <= 4 /\ b / 16 <= 4.

(** The facts about one byte that are checked by enumeration. *)
Definition byte_check (b : Z) : bool :=
  let s := swar1 b in
  let t := swar2 s in
  (0 <=? s) && (s <? 256) && (0 <=? t) && (t mod 16 <=? 4) && (t / 16 <=? 4)
  && (swar3 t =? Z.of_nat (count_below (bit_of b) 8)).

(** The value of [a] in [zp7_pdep_pre_64] after the pre-masking and the first
    [k] iterations of the loop, that is, on entry to iteration [i = 5 - k]. *)
Definition pdep_state (a : Z) (masks : zp7_masks_64_t) (k : nat) : Z :=
  fold_left (pdep_step masks) (firstn k (rev (seq 0 N_BITS)))
    (pdep_premask a (popcnt_64 (mask masks))).

(** The value of [a] in [zp7_pext_pre_64] after the pre-masking and the first
    [k] iterations of the loop, that is, on entry to iteration [i = k]. *)
Definition pext_state (a : Z) (masks : zp7_masks_64_t) (k : nat) : Z :=
  fold_left (pext_step masks) (seq 0 k) (Z.land a (mask masks)).

(** The number whose binary digits are [d 0, ..., d (k-1)]. *)
Fixpoint digits_sum (d : nat -> bool) (k : nat) : nat :=
  match k with
  | O => O
  | S k' => digits_sum d k' + (if d k' then 2 ^ k' else 0)
  end.

(** ** The build with HAS_POPCNT and HAS_BZHI *)

(** Modelled from the spec: [_popcnt64] is the processor's population count,
    the number of set bits of its 64-bit operand. *)
Definition popcnt64 (x : Z) : Z := Z.of_nat (popcount x).

(** Modelled from the spec: [_bzhi_u64 (a, n)] is the processor's "zero high
    bits" instruction: the index is the low byte of [n]; the bits of [a] from
    the index upwards are cleared, and nothing is cleared when the index is
    64 or more. *)
Definition bzhi_u64 (a n : Z) : Z :=
  let index := n mod 256 in
  if index <? 64 then a mod 2 ^ index else a.

(** [zp7_pdep_pre_64] with both macros defined. *)
Definition zp7_pdep_pre_64_native (a : Z) (masks : zp7_masks_64_t) : Z :=
  fold_left (pdep_step masks) (rev (seq 0 N_BITS))
    (bzhi_u64 a (popcnt64 (mask masks))).

(** The entry points as test.c builds them (HAS_CLMUL, HAS_BZHI and
    HAS_POPCNT). *)
Definition zp7_pext_64_native (a mask : Z) : Z :=
  zp7_pext_pre_64 a (zp7_ppp_64_clmul mask).

Definition zp7_pdep_64_native (a mask : Z) : Z :=
  zp7_pdep_pre_64_native a (zp7_ppp_64_clmul mask).

(** ** The test program (test.c) *)

Module Harness.

(** [typedef struct { uint64_t a, b, c, d; } rand_ctx_t;] *)
Record rand_ctx_t : Type := { a : Z; b : Z; c : Z; d : Z }.

Definition ctx_in_range (x : rand_ctx_t) : Prop :=
  U64.in_range (a x) /\ U64.in_range (b x) /\
  U64.in_range (c x) /\ U64.in_range (d x).

(** [return (x << k) | (x >> (64 - k));] *)
Definition rotate_left (x k : Z) : Z :=
  Z.lor (U64.shl x k) (U64.shr x (U64.sub 64 k)).

(** [rand_next] updates the generator in place and returns its new [d]: the
    model returns the value and the new generator. *)
Definition rand_next (x : rand_ctx_t) : Z * rand_ctx_t :=
  let e := U64.sub (a x) (rotate_left (b x) 7) in
  let a' := Z.lxor (b x) (rotate_left (c x) 13) in
  let b' := U64.add (c x) (rotate_left (d x) 37) in
  let c' := U64.add (d x) e in
  let d' := U64.add e a' in
  (d', {| a := a'; b := b'; c := c'; d := d' |}).

Definition rand_seed : rand_ctx_t :=
  {| a := 0x89ABCDEF01234567; b := 0xFEDCBA9876543210;
     c := 0xFEDCBA9876543210; d := 0xFEDCBA9876543210 |}.

(** [for (int i = 0; i < 1000; i++) (void)rand_next(x);] *)
Definition rand_init : rand_ctx_t :=
  fold_left (fun x _ => snd (rand_next x)) (seq 0 1000) rand_seed.

(** [#define N_TESTS (1 << 20)] *)
Definition N_TESTS : N := 1048576.

(** How [main] ends: it prints the number of tests and returns 0, or prints
    a failure with the mask, the input and the two results and exits
    with 1. *)
Inductive outcome : Type :=
| Passed (tests : Z)
| Fail_PEXT (m input e_1 e_2 : Z)
| Fail_PDEP (m input d_1 d_2 : Z).

Definition exit_code (o : outcome) : Z :=
  match o with
  | Passed _ => 0
  | _ => 1
  end.

(** A run that has exited, or the generator and the counter [tests] of one
    that goes on. *)
Definition run : Type := (outcome + rand_ctx_t * Z)%type.

Definition and_then (r : run) (f : rand_ctx_t * Z -> run) : run :=
  match r with
  | inl o => inl o
  | inr st => f st
  end.

(** Modelled from the spec: [_pext_u64] and [_pdep_u64] are the processor's
    PEXT and PDEP instructions. *)
Definition pext_u64 (a mask : Z) : Z := pext_ref a mask.
Definition pdep_u64 (a mask : Z) : Z := pdep_ref a mask.

(** The body of the innermost loop. *)
Definition test_input (m : Z) (st : rand_ctx_t * Z) : run :=
  let '(r, tests) := st in
  let '(input, r) := rand_next r in
  let e_1 := pext_u64 input m in
  let e_2 := zp7_pext_64_native input m in
  if negb (e_1 =? e_2) then inl (Fail_PEXT m input e_1 e_2) else
  let tests := U64.add tests 1 in
  let d_1 := pdep_u64 input m in
  let d_2 := zp7_pdep_64_native input m in
  if negb (d_1 =? d_2) then inl (Fail_PDEP m input d_1 d_2) else
  inr (r, U64.add tests 1).

(** [for (int j = 0; j < 32; j++)] *)
Definition test_mask (m : Z) (st : rand_ctx_t * Z) : run :=
  fold_left (fun r _ => and_then r (test_input m)) (seq 0 32) (inr st).

(** The body of the outer loop: four masks from three random words. *)
Definition test_round (st : rand_ctx_t * Z) : run :=
  let '(r, tests) := st in
  let '(mask, r) := rand_next r in
  let '(v_1, r) := rand_next r in
  let '(v_2, r) := rand_next r in
  let mask_2 := Z.lor (Z.lor mask v_1) v_2 in
  let masks := [mask; U64.not mask; mask_2; U64.not mask_2] in
  fold_left (fun r m => and_then r (test_mask m)) masks (inr (r, tests)).

(** What [main] reports for a run. *)
Definition report (r : run) : outcome :=
  match r with
  | inl o => o
  | inr (_, tests) => Passed tests
  end.

Definition main : outcome :=
  report (N.iter N_TESTS (fun r => and_then r test_round) (inr (rand_init, 0))).

End Harness.

(** ** Bits of the 64-bit operations *)

Section Bits.

Lemma in_range_nonneg x : U64.in_range x -> 0 <= x.
Proof. unfold U64.in_range; lia. Qed.

Lemma wrap_in_range x : U64.in_range (U64.wrap x).
Proof. unfold U64.in_range, U64.wrap. apply Z.mod_pos_bound. lia. Qed.

Lemma wrap_small x : U64.in_range x -> U64.wrap x = x.
Proof. unfold U64.in_range, U64.wrap. intros H. apply Z.mod_small; exact H. Qed.

Lemma bit_of_wrap x b : bit_of (U64.wrap x) b = (b <? 64)%nat && bit_of x b.
Proof.
  unfold bit_of, U64.wrap.
  rewrite Z.testbit_mod_pow2 by lia.
  f_equal.
  destruct (Nat.ltb_spec b 64); [apply Z.ltb_lt | apply Z.ltb_ge]; lia.
Qed.

Lemma bit_of_high x b : U64.in_range x -> (64 <= b)%nat -> bit_of x b = false.
Proof.
  intros Hx Hb. rewrite <- (wrap_small x Hx), bit_of_wrap.
  destruct (Nat.ltb_spec b 64); [lia | reflexivity].
Qed.

Lemma bit_of_ext x y :
  0 <= x -> 0 <= y -> (forall b, bit_of x b = bit_of y b) -> x = y.
Proof.
  intros _ _ H. apply Z.bits_inj'. intros n Hn.
  specialize (H (Z.to_nat n)). unfold bit_of in H.
  rewrite Z2Nat.id in H by exact Hn. exact H.
Qed.

Lemma bit_of_ext64 x y :
  U64.in_range x -> U64.in_range y ->
  (forall b, (b < 64)%nat -> bit_of x b = bit_of y b) -> x = y.
Proof.
  intros Hx Hy H. apply bit_of_ext; try (apply in_range_nonneg; assumption).
  intros b. destruct (Nat.lt_ge_cases b 64) as [Hb | Hb].
  - apply H, Hb.
  - rewrite !bit_of_high by assumption. reflexivity.
Qed.

Lemma in_range_of_bits x :
  0 <= x -> (forall b, (64 <= b)%nat -> bit_of x b = false) -> U64.in_range x.
Proof.
  intros Hx H. unfold U64.in_range. split; [exact Hx|].
  destruct (Z.eq_dec x 0) as [-> | Hne]; [lia|].
  apply Z.log2_lt_pow2; [lia|].
  destruct (Z.lt_ge_cases (Z.log2 x) 64) as [Hl | Hl]; [exact Hl|].
  exfalso.
  specialize (H (Z.to_nat (Z.log2 x))). unfold bit_of in H.
  rewrite Z2Nat.id in H by lia.
  rewrite Z.bit_log2 in H by lia.
  discriminate H. lia.
Qed.

Lemma bit_of_land x y b : bit_of (Z.land x y) b = bit_of x b && bit_of y b.
Proof. apply Z.land_spec. Qed.

Lemma bit_of_lor x y b : bit_of (Z.lor x y) b = bit_of x b || bit_of y b.
Proof. apply Z.lor_spec. Qed.

Lemma bit_of_lxor x y b : bit_of (Z.lxor x y) b = xorb (bit_of x b) (bit_of y b).
Proof. apply Z.lxor_spec. Qed.

Lemma bit_of_not x b : bit_of (U64.not x) b = (b <? 64)%nat && negb (bit_of x b).
Proof.
  unfold U64.not. rewrite bit_of_wrap. unfold bit_of.
  rewrite Z.lnot_spec by lia. reflexivity.
Qed.

Lemma bit_of_shl x (s : nat) b :
  (s < 64)%nat ->
  bit_of (U64.shl x (Z.of_nat s)) b
  = (b <? 64)%nat && ((s <=? b)%nat && bit_of x (b - s)).
Proof.
  intros Hs. unfold U64.shl. rewrite bit_of_wrap. f_equal.
  rewrite Z.mod_small by lia. unfold bit_of.
  rewrite Z.shiftl_spec by lia.
  destruct (Nat.leb_spec s b) as [H | H].
  - rewrite Nat2Z.inj_sub by exact H. reflexivity.
  - apply Z.testbit_neg_r. lia.
Qed.

Lemma bit_of_shr x (s : nat) b :
  (s < 64)%nat -> bit_of (U64.shr x (Z.of_nat s)) b = bit_of x (b + s).
Proof.
  intros Hs. unfold U64.shr, bit_of.
  rewrite Z.mod_small by lia.
  rewrite Z.shiftr_spec by lia. rewrite Nat2Z.inj_add. reflexivity.
Qed.

Lemma land_in_range_l x y : U64.in_range x -> 0 <= y -> U64.in_range (Z.land x y).
Proof.
  intros Hx Hy. apply in_range_of_bits.
  - apply Z.land_nonneg. left. apply in_range_nonneg, Hx.
  - intros b Hb. rewrite bit_of_land, (bit_of_high x) by assumption. reflexivity.
Qed.

Lemma land_in_range_r x y : 0 <= x -> U64.in_range y -> U64.in_range (Z.land x y).
Proof. intros Hx Hy. rewrite Z.land_comm. apply land_in_range_l; assumption. Qed.

Lemma lor_in_range x y :
  U64.in_range x -> U64.in_range y -> U64.in_range (Z.lor x y).
Proof.
  intros Hx Hy. apply in_range_of_bits.
  - apply Z.lor_nonneg. split; apply in_range_nonneg; assumption.
  - intros b Hb. rewrite bit_of_lor, !bit_of_high by assumption. reflexivity.
Qed.

Lemma lxor_in_range x y :
  U64.in_range x -> U64.in_range y -> U64.in_range (Z.lxor x y).
Proof.
  intros Hx Hy. apply in_range_of_bits.
  - apply Z.lxor_nonneg. split; intros _; apply in_range_nonneg; assumption.
  - intros b Hb. rewrite bit_of_lxor, !bit_of_high by assumption. reflexivity.
Qed.

Lemma shr_in_range x (s : nat) :
  (s < 64)%nat -> U64.in_range x -> U64.in_range (U64.shr x (Z.of_nat s)).
Proof.
  intros Hs Hx. apply in_range_of_bits.
  - unfold U64.shr. apply Z.shiftr_nonneg, in_range_nonneg, Hx.
  - intros b Hb. rewrite bit_of_shr by exact Hs. apply bit_of_high; [exact Hx | lia].
Qed.

Lemma shl_in_range x n : U64.in_range (U64.shl x n).
Proof. apply wrap_in_range. Qed.

Lemma not_in_range x : U64.in_range (U64.not x).
Proof. apply wrap_in_range. Qed.

(** [1 << i] for the loop index [i]. *)
Lemma shiftl_1_nat i : Z.shiftl 1 (Z.of_nat i) = Z.of_nat (2 ^ i).
Proof.
  rewrite Z.shiftl_1_l. rewrite Nat2Z.inj_pow. reflexivity.
Qed.

Lemma pow2_lt_64 i : (i < 6)%nat -> (2 ^ i < 64)%nat.
Proof.
  intros H. change 64%nat with (2 ^ 6)%nat. apply Nat.pow_lt_mono_r; lia.
Qed.

End Bits.

(** ** Parallel prefix XOR *)

Section PrefixSum.

Lemma xor_below_ext f g n :
  (forall j, (j < n)%nat -> f j = g j) -> xor_below f n = xor_below g n.
Proof.
  induction n as [|n IH]; intros H; simpl; [reflexivity|].
  rewrite IH by (intros; apply H; lia). rewrite H by lia. reflexivity.
Qed.

(** After [k] doubling steps, bit [b] holds the XOR of the window of the
    [2^k] input bits ending at [b]. *)
Lemma prefix_sum_fold k x :
  (k <= 6)%nat -> U64.in_range x ->
  U64.in_range (fold_left prefix_sum_step (seq 0 k) x) /\
  forall b, (b < 64)%nat ->
    bit_of (fold_left prefix_sum_step (seq 0 k) x) b
    = xorb (xor_below (bit_of x) (S b)) (xor_below (bit_of x) (S b - 2 ^ k)).
Proof.
  intros Hk Hx. induction k as [|k IH].
  - simpl. split; [exact Hx|]. intros b _.
    replace (b - 0)%nat with b by lia.
    destruct (xor_below (bit_of x) b), (bit_of x b); reflexivity.
  - destruct IH as [IHr IHb]; [lia|].
    rewrite seq_S, fold_left_app. cbn [fold_left Nat.add].
    set (y := fold_left prefix_sum_step (seq 0 k) x) in *.
    unfold prefix_sum_step. rewrite shiftl_1_nat.
    assert (H2k : (2 ^ k < 64)%nat) by (apply pow2_lt_64; lia).
    split; [apply lxor_in_range; [exact IHr | apply shl_in_range]|].
    intros b Hb.
    rewrite bit_of_lxor, bit_of_shl by exact H2k.
    assert (Hlt : (b <? 64)%nat = true) by (apply Nat.ltb_lt; exact Hb).
    rewrite Hlt. simpl andb.
    rewrite Nat.pow_succ_r'.
    destruct (Nat.leb_spec (2 ^ k) b) as [Hle | Hgt].
    + rewrite !IHb by lia.
      replace (S (b - 2 ^ k))%nat with (S b - 2 ^ k)%nat by lia.
      replace (S b - 2 ^ k - 2 ^ k)%nat with (S b - 2 * 2 ^ k)%nat by lia.
      destruct (xor_below (bit_of x) (S b)),
        (xor_below (bit_of x) (S b - 2 ^ k)),
        (xor_below (bit_of x) (S b - 2 * 2 ^ k)); reflexivity.
    + rewrite IHb by lia.
      replace (S b - 2 ^ k)%nat with O by lia.
      replace (S b - 2 * 2 ^ k)%nat with O by lia.
      simpl. rewrite !xorb_false_r. reflexivity.
Qed.

Lemma prefix_sum_in_range x : U64.in_range x -> U64.in_range (prefix_sum x).
Proof. intros Hx. apply (prefix_sum_fold 6 x); [lia | exact Hx]. Qed.

(** Bit [b] of [prefix_sum x] is the XOR of the bits [0..b] of [x]. *)
Lemma prefix_sum_spec x b :
  U64.in_range x -> (b < 64)%nat ->
  bit_of (prefix_sum x) b = xor_below (bit_of x) (S b).
Proof.
  intros Hx Hb. unfold prefix_sum, N_BITS.
  destruct (prefix_sum_fold 6 x) as [_ H]; [lia | exact Hx|].
  rewrite H by exact Hb.
  replace (S b - 2 ^ 6)%nat with O by (change (2 ^ 6)%nat with 64%nat; lia).
  simpl. apply xorb_false_r.
Qed.

(** Bit [b] of [prefix_sum x << 1] is the XOR of the bits strictly below [b]. *)
Lemma prefix_sum_shl_spec x b :
  U64.in_range x -> (b < 64)%nat ->
  bit_of (U64.shl (prefix_sum x) 1) b = xor_below (bit_of x) b.
Proof.
  intros Hx Hb. change 1 with (Z.of_nat 1).
  rewrite bit_of_shl by lia.
  replace (b <? 64)%nat with true by (symmetry; apply Nat.ltb_lt; exact Hb).
  destruct b as [|b]; [reflexivity|].
  simpl. rewrite Nat.sub_0_r.
  apply prefix_sum_spec; [exact Hx | lia].
Qed.

End PrefixSum.

(** ** Counters read one binary digit at a time *)

Section Counters.

Lemma counter_count_below f : counter (count_below f).
Proof.
  split; [reflexivity|]. intros j. simpl. destruct (f j); [right | left]; lia.
Qed.

Lemma grows_count_below f j : grows (count_below f) j = f j.
Proof.
  unfold grows. simpl. destruct (f j).
  - destruct (Nat.eqb_spec (count_below f j + 1) (count_below f j)); [lia | reflexivity].
  - rewrite Nat.add_0_r, Nat.eqb_refl. reflexivity.
Qed.

(** The parity of a counter is the XOR of its growth positions. *)
Lemma xor_below_grows g n : counter g -> xor_below (grows g) n = Nat.odd (g n).
Proof.
  intros [H0 Hs]. induction n as [|n IH]; simpl.
  - rewrite H0. reflexivity.
  - rewrite IH. unfold grows. destruct (Hs n) as [E | E]; rewrite E.
    + rewrite Nat.eqb_refl. simpl. apply xorb_false_r.
    + destruct (Nat.eqb_spec (S (g n)) (g n)); [lia|]. simpl.
      rewrite Nat.odd_succ, <- Nat.negb_odd. apply xorb_true_r.
Qed.

Lemma half_succ_odd n : Nat.odd n = true -> (S n / 2 = S (n / 2))%nat.
Proof.
  intros H. apply Nat.odd_spec in H. destruct H as [k ->].
  replace (S (2 * k + 1))%nat with ((k + 1) * 2)%nat by lia.
  rewrite Nat.div_mul by lia.
  replace (2 * k + 1)%nat with (1 + k * 2)%nat by lia.
  rewrite Nat.div_add by lia. simpl. lia.
Qed.

Lemma half_succ_even n : Nat.odd n = false -> (S n / 2 = n / 2)%nat.
Proof.
  intros H. rewrite <- Nat.negb_even in H. apply negb_false_iff in H.
  apply Nat.even_spec in H. destruct H as [k ->].
  replace (S (2 * k))%nat with (1 + k * 2)%nat by lia.
  rewrite Nat.div_add by lia. rewrite Nat.mul_comm, Nat.div_mul by lia.
  simpl. reflexivity.
Qed.

(** Halving a counter gives the counter of its carries. *)
Lemma counter_half g : counter g -> counter (fun j => g j / 2)%nat.
Proof.
  intros [H0 Hs]. split; [rewrite H0; reflexivity|].
  intros j. destruct (Hs j) as [E | E]; rewrite E; [left; reflexivity|].
  destruct (Nat.odd (g j)) eqn:Ho.
  - right. apply half_succ_odd, Ho.
  - left. apply half_succ_even, Ho.
Qed.

Lemma grows_half g j :
  counter g -> grows (fun j => g j / 2)%nat j = grows g j && Nat.odd (g j).
Proof.
  intros [_ Hs]. unfold grows. cbv beta. destruct (Hs j) as [E | E]; rewrite E.
  - rewrite !Nat.eqb_refl. reflexivity.
  - destruct (Nat.eqb_spec (S (g j)) (g j)); [lia|]. cbn [negb andb].
    destruct (Nat.odd (g j)) eqn:Ho.
    + rewrite half_succ_odd by exact Ho.
      destruct (Nat.eqb_spec (S (g j / 2)) (g j / 2)); [lia | reflexivity].
    + rewrite half_succ_even by exact Ho. rewrite Nat.eqb_refl. reflexivity.
Qed.

End Counters.

(** ** The planes of the parallel prefix popcount *)

Section Planes.

Lemma zp7_ppp_64_mask m : mask (zp7_ppp_64 m) = m.
Proof. reflexivity. Qed.

Lemma ppp_loop_length n m : length (ppp_loop n m) = n.
Proof. revert m. induction n as [|n IH]; intros m; simpl; [|rewrite IH]; reflexivity. Qed.

(** If the running mask marks the growth positions of a counter [g], plane
    [i] holds digit [i] of [g] at every position. *)
Lemma ppp_loop_spec n : forall m g,
  U64.in_range m -> counter g ->
  (forall j, (j < 64)%nat -> bit_of m j = grows g j) ->
  forall i, (i < n)%nat ->
    U64.in_range (nth i (ppp_loop n m) 0) /\
    forall b, (b < 64)%nat ->
      bit_of (nth i (ppp_loop n m) 0) b = Nat.odd (g b / 2 ^ i).
Proof.
  induction n as [|n IH]; intros m g Hm Hg Hbits i Hi; [lia|].
  assert (Hplane : forall b, (b < 64)%nat ->
            bit_of (U64.shl (prefix_sum m) 1) b = Nat.odd (g b)).
  { intros b Hb. rewrite prefix_sum_shl_spec by assumption.
    rewrite (xor_below_ext _ (grows g)) by (intros; apply Hbits; lia).
    apply xor_below_grows, Hg. }
  destruct i as [|i]; cbn [ppp_loop nth].
  - split; [apply shl_in_range|]. intros b Hb.
    rewrite Nat.pow_0_r, Nat.div_1_r. apply Hplane, Hb.
  - destruct (IH (Z.land m (U64.shl (prefix_sum m) 1)) (fun j => g j / 2)%nat)
      with (i := i) as [Hr Hb'].
    + apply land_in_range_l; [exact Hm | apply in_range_nonneg, shl_in_range].
    + apply counter_half, Hg.
    + intros j Hj. rewrite bit_of_land, Hbits, Hplane by exact Hj.
      symmetry. apply grows_half, Hg.
    + lia.
    + split; [exact Hr|]. intros b Hb. rewrite Hb' by exact Hb.
      rewrite Nat.Div0.div_div, Nat.pow_succ_r'. reflexivity.
Qed.

Lemma digit_odd c i : Nat.testbit c i = Nat.odd (c / 2 ^ i).
Proof. rewrite Nat.testbit_odd, Nat.shiftr_div_pow2. reflexivity. Qed.

Lemma ppp_plane_in_range mask i :
  (i < 6)%nat -> U64.in_range (nth i (ppp_bit (zp7_ppp_64 mask)) 0).
Proof.
  intros Hi. simpl.
  apply (ppp_loop_spec N_BITS (U64.not mask) (unset_below mask)); try exact Hi.
  - apply not_in_range.
  - apply counter_count_below.
  - intros j Hj. unfold unset_below. rewrite grows_count_below, bit_of_not.
    replace (j <? 64)%nat with true by (symmetry; apply Nat.ltb_lt; exact Hj).
    reflexivity.
Qed.

Lemma ppp_plane_bit mask i b :
  (i < 6)%nat -> (b < 64)%nat ->
  bit_of (nth i (ppp_bit (zp7_ppp_64 mask)) 0) b
  = Nat.testbit (unset_below mask b) i.
Proof.
  intros Hi Hb. simpl. rewrite digit_odd.
  apply (ppp_loop_spec N_BITS (U64.not mask) (unset_below mask)); try assumption.
  - apply not_in_range.
  - apply counter_count_below.
  - intros j Hj. unfold unset_below. rewrite grows_count_below, bit_of_not.
    replace (j <? 64)%nat with true by (symmetry; apply Nat.ltb_lt; exact Hj).
    reflexivity.
Qed.

End Planes.

(** ** Where a selected bit sits after [i] of the six shifts *)

Section Positions.

Variable mask : Z.

#[local] Abbreviation c := (unset_below mask).

Lemma unset_below_le j : (c j <= j)%nat.
Proof.
  unfold unset_below. induction j as [|j IH]; simpl; [lia|].
  destruct (negb (bit_of mask j)); lia.
Qed.

Lemma unset_below_add j d : (c j <= c (j + d) <= c j + d)%nat.
Proof.
  unfold unset_below. induction d as [|d IH].
  - rewrite Nat.add_0_r. lia.
  - rewrite Nat.add_succ_r. simpl.
    destruct (negb (bit_of mask (j + d))); lia.
Qed.

Lemma unset_below_mono j j' : (j <= j')%nat -> (c j <= c j' <= c j + (j' - j))%nat.
Proof.
  intros H. replace j' with (j + (j' - j))%nat at 1 2 by lia.
  apply unset_below_add.
Qed.

(** A set mask bit at [j] is not counted. *)
Lemma unset_below_gap j j' :
  bit_of mask j = true -> (j < j')%nat -> (c j' + 1 <= c j + (j' - j))%nat.
Proof.
  intros Hj Hlt.
  assert (E : c (S j) = c j).
  { unfold unset_below. simpl. rewrite Hj. simpl. lia. }
  pose proof (unset_below_mono (S j) j' Hlt) as H. lia.
Qed.

Lemma set_unset_below j : (set_below mask j + c j = j)%nat.
Proof.
  unfold set_below, unset_below. induction j as [|j IH]; simpl; [reflexivity|].
  destruct (bit_of mask j); simpl; lia.
Qed.

Lemma mod2_odd n : (n mod 2 = if Nat.odd n then 1 else 0)%nat.
Proof.
  destruct (Nat.odd n) eqn:Ho.
  - apply Nat.odd_spec in Ho. destruct Ho as [k ->].
    rewrite Nat.add_comm, Nat.mul_comm, Nat.Div0.mod_add. reflexivity.
  - rewrite <- Nat.negb_even in Ho. apply negb_false_iff, Nat.even_spec in Ho.
    destruct Ho as [k ->]. rewrite Nat.mul_comm. apply Nat.Div0.mod_mul.
Qed.

Lemma pow2_pos i : (0 < 2 ^ i)%nat.
Proof. apply Nat.neq_0_lt_0, Nat.pow_nonzero. lia. Qed.

Lemma mod_pow2_succ n i :
  (n mod 2 ^ S i = n mod 2 ^ i + if Nat.odd (n / 2 ^ i) then 2 ^ i else 0)%nat.
Proof.
  rewrite Nat.pow_succ_r', (Nat.mul_comm 2), Nat.Div0.mod_mul_r, mod2_odd.
  destruct (Nat.odd (n / 2 ^ i)); lia.
Qed.

Lemma pos_le i j : (pos mask i j <= j)%nat.
Proof. unfold pos. lia. Qed.

Lemma pos_0 j : pos mask 0 j = j.
Proof. unfold pos. simpl. lia. Qed.

Lemma pos_6 j : (j < 64)%nat -> pos mask 6 j = set_below mask j.
Proof.
  intros Hj. unfold pos. pose proof (set_unset_below j) as E.
  pose proof (unset_below_le j) as L.
  rewrite Nat.mod_small by (change (2 ^ 6)%nat with 64%nat; lia). lia.
Qed.

(** One more shift: the bit moves by [2^i] exactly when digit [i] of its
    count is set. *)
Lemma pos_succ i j :
  (pos mask i j = pos mask (S i) j + if Nat.odd (c j / 2 ^ i) then 2 ^ i else 0)%nat.
Proof.
  unfold pos. pose proof (mod_pow2_succ (c j) i) as E.
  pose proof (Nat.Div0.mod_le (c j) (2 ^ S i)) as L.
  pose proof (unset_below_le j). lia.
Qed.

Lemma same_block a b m :
  (0 < m)%nat -> (a <= b)%nat -> (b - a <= b mod m)%nat -> (a / m = b / m)%nat.
Proof.
  intros Hm Hab Hd. pose proof (Nat.div_mod_eq b m) as E.
  pose proof (Nat.mod_upper_bound b m) as U.
  symmetry. apply (Nat.div_unique a m (b / m) (a - m * (b / m))); lia.
Qed.

(** The count at the current position of a bit agrees with the count at its
    original position from digit [i] upwards: the plane can be read where
    the bit currently sits. *)
Lemma count_at_pos i j : (c (pos mask i j) / 2 ^ i = c j / 2 ^ i)%nat.
Proof.
  pose proof (unset_below_mono (pos mask i j) j (pos_le i j)) as M.
  apply same_block; [apply pow2_pos | lia|].
  unfold pos in *. lia.
Qed.

(** A bit whose digit [i] is clear is not picked up by the shifted plane of
    the scatter loop. *)
Lemma count_above_pos i j :
  bit_of mask j = true -> Nat.odd (c j / 2 ^ i) = false ->
  (c (pos mask i j + 2 ^ i) / 2 ^ i = c j / 2 ^ i)%nat.
Proof.
  intros Hj Ho.
  pose proof (pow2_pos i) as Hm.
  pose proof (Nat.div_mod_eq (c j) (2 ^ i)) as E.
  pose proof (Nat.mod_upper_bound (c j) (2 ^ i)) as U.
  pose proof (unset_below_le j) as L.
  pose proof (Nat.Div0.mod_le (c j) (2 ^ i)) as L'.
  assert (Hlt : (j < pos mask i j + 2 ^ i)%nat) by (unfold pos; lia).
  pose proof (unset_below_gap j _ Hj Hlt) as G.
  pose proof (unset_below_mono j _ (Nat.lt_le_incl _ _ Hlt)) as M.
  symmetry.
  apply (Nat.div_unique _ (2 ^ i) (c j / 2 ^ i)
           (c (pos mask i j + 2 ^ i) - 2 ^ i * (c j / 2 ^ i))).
  - unfold pos in *. lia.
  - lia.
Qed.

End Positions.

(** ** The gather loop *)

Section Gather.

Variable mask : Z.
Variable src : nat -> bool.

#[local] Abbreviation c := (unset_below mask).

Lemma plane_at b i :
  (i < 6)%nat -> (b < 64)%nat ->
  bit_of (nth i (ppp_bit (zp7_ppp_64 mask)) 0) b = Nat.odd (c b / 2 ^ i).
Proof. intros Hi Hb. rewrite ppp_plane_bit by assumption. apply digit_odd. Qed.

Lemma plane_at_pos i j :
  (i < 6)%nat -> (j < 64)%nat ->
  bit_of (nth i (ppp_bit (zp7_ppp_64 mask)) 0) (pos mask i j)
  = Nat.odd (c j / 2 ^ i).
Proof.
  intros Hi Hj. pose proof (pos_le mask i j).
  rewrite plane_at by lia. rewrite count_at_pos. reflexivity.
Qed.

Lemma placed_lt i x q : placed mask src i x -> bit_of x q = true -> (q < 64)%nat.
Proof.
  intros [_ H] Hq. apply H in Hq. destruct Hq as (j & Hj & _ & _ & ->).
  pose proof (pos_le mask i j). lia.
Qed.

Lemma pext_step_placed i x :
  (i < 6)%nat -> placed mask src i x ->
  placed mask src (S i) (pext_step (zp7_ppp_64 mask) x i).
Proof.
  intros Hi Hpl. pose proof Hpl as [Hr Hx].
  pose proof (ppp_plane_in_range mask i Hi) as Hpr.
  pose proof (pow2_lt_64 i Hi) as H2.
  unfold pext_step. rewrite shiftl_1_nat.
  set (plane := nth i (ppp_bit (zp7_ppp_64 mask)) 0) in *.
  split.
  - apply lor_in_range.
    + apply land_in_range_l; [exact Hr | apply in_range_nonneg, not_in_range].
    + apply shr_in_range; [exact H2|].
      apply land_in_range_l; [exact Hr | apply in_range_nonneg, Hpr].
  - intros q.
    rewrite bit_of_lor, bit_of_land, bit_of_not, bit_of_shr, bit_of_land by exact H2.
    rewrite orb_true_iff, !andb_true_iff, negb_true_iff. split.
    + intros [(Hq & _ & Hn) | (Hq & Hp)].
      * apply Hx in Hq. destruct Hq as (j & Hj & Hm & Hs & ->).
        exists j. repeat split; try assumption.
        unfold plane in Hn. rewrite plane_at_pos in Hn by assumption.
        pose proof (pos_succ mask i j) as E. rewrite Hn in E. lia.
      * apply Hx in Hq. destruct Hq as (j & Hj & Hm & Hs & Hq).
        exists j. repeat split; try assumption.
        unfold plane in Hp. rewrite Hq, plane_at_pos in Hp by assumption.
        pose proof (pos_succ mask i j) as E. rewrite Hp in E. lia.
    + intros (j & Hj & Hm & Hs & ->).
      pose proof (pos_succ mask i j) as E.
      pose proof (plane_at_pos i j Hi Hj) as P. fold plane in P.
      assert (Hb : bit_of x (pos mask i j) = true)
        by (apply Hx; exists j; repeat split; assumption).
      destruct (Nat.odd (c j / 2 ^ i)).
      * right. rewrite <- E, Hb, P. split; reflexivity.
      * left. rewrite Nat.add_0_r in E. rewrite <- E, Hb, P.
        pose proof (pos_le mask i j).
        repeat split. apply Nat.ltb_lt. lia.
Qed.

Lemma pext_fold_placed k x :
  (k <= 6)%nat -> placed mask src 0 x ->
  placed mask src k (fold_left (pext_step (zp7_ppp_64 mask)) (seq 0 k) x).
Proof.
  intros Hk H0. induction k as [|k IH]; [exact H0|].
  rewrite seq_S, fold_left_app. cbn [fold_left Nat.add].
  apply pext_step_placed; [lia | apply IH; lia].
Qed.

End Gather.

(** ** The scatter loop *)

Section Scatter.

Variable mask : Z.
Variable src : nat -> bool.

#[local] Abbreviation c := (unset_below mask).
#[local] Abbreviation masks := (zp7_ppp_64 mask).

Lemma pdep_bit_in_range i : (i < 6)%nat -> U64.in_range (pdep_bit masks i).
Proof.
  intros Hi. unfold pdep_bit. rewrite shiftl_1_nat.
  apply shr_in_range; [apply pow2_lt_64, Hi | apply ppp_plane_in_range, Hi].
Qed.

Lemma bit_of_pdep_bit i q :
  (i < 6)%nat ->
  bit_of (pdep_bit masks i) q = bit_of (nth i (ppp_bit masks) 0) (q + 2 ^ i).
Proof.
  intros Hi. unfold pdep_bit. rewrite shiftl_1_nat.
  apply bit_of_shr, pow2_lt_64, Hi.
Qed.

(** The bits that stay are those whose digit [i] is clear. *)
Lemma pdep_stay_bits i x q :
  (i < 6)%nat -> placed mask src (S i) x ->
  bit_of (pdep_stay masks x i) q = true <->
  exists j, (j < 64)%nat /\ bit_of mask j = true /\ src j = true /\
            q = pos mask i j /\ Nat.odd (c j / 2 ^ i) = false.
Proof.
  intros Hi [Hr Hx]. unfold pdep_stay.
  rewrite bit_of_land, bit_of_not, bit_of_pdep_bit by exact Hi.
  rewrite !andb_true_iff, negb_true_iff. split.
  - intros (Hq & _ & Hn). apply Hx in Hq.
    destruct Hq as (j & Hj & Hm & Hs & ->).
    pose proof (pos_succ mask i j) as E.
    destruct (Nat.odd (c j / 2 ^ i)) eqn:Ho.
    + rewrite <- E, plane_at_pos, Ho in Hn by assumption. discriminate Hn.
    + exists j. repeat split; try assumption. lia.
  - intros (j & Hj & Hm & Hs & -> & Ho).
    pose proof (pos_succ mask i j) as E. rewrite Ho, Nat.add_0_r in E.
    pose proof (pos_le mask i j) as L.
    repeat split.
    + apply Hx. exists j. repeat split; assumption.
    + apply Nat.ltb_lt. lia.
    + destruct (Nat.lt_ge_cases (pos mask i j + 2 ^ i) 64) as [Hlt | Hge].
      * rewrite plane_at by assumption.
        rewrite count_above_pos by assumption. exact Ho.
      * apply bit_of_high; [apply ppp_plane_in_range, Hi | exact Hge].
Qed.

(** The bits that move up by [2^i] are those whose digit [i] is set. *)
Lemma pdep_move_bits i x q :
  (i < 6)%nat -> placed mask src (S i) x ->
  bit_of (pdep_move masks x i) q = true <->
  exists j, (j < 64)%nat /\ bit_of mask j = true /\ src j = true /\
            q = pos mask i j /\ Nat.odd (c j / 2 ^ i) = true.
Proof.
  intros Hi [Hr Hx]. unfold pdep_move. rewrite shiftl_1_nat.
  rewrite bit_of_shl by (apply pow2_lt_64, Hi).
  rewrite bit_of_land, bit_of_pdep_bit by exact Hi.
  rewrite !andb_true_iff, Nat.ltb_lt, Nat.leb_le. split.
  - intros (Hlt & Hle & Hq & Hp). apply Hx in Hq.
    destruct Hq as (j & Hj & Hm & Hs & Hq).
    replace (q - 2 ^ i + 2 ^ i)%nat with q in Hp by lia.
    rewrite plane_at in Hp by assumption.
    pose proof (pos_succ mask i j) as E.
    destruct (Nat.odd (c j / 2 ^ i)) eqn:Ho.
    + exists j. repeat split; try assumption. lia.
    + rewrite Nat.add_0_r in E.
      pose proof (count_above_pos mask i j Hm Ho) as A.
      replace (pos mask i j + 2 ^ i)%nat with q in A by lia.
      rewrite A, Ho in Hp. discriminate Hp.
  - intros (j & Hj & Hm & Hs & -> & Ho).
    pose proof (pos_succ mask i j) as E. rewrite Ho in E.
    pose proof (pos_le mask i j) as L.
    replace (pos mask i j - 2 ^ i + 2 ^ i)%nat with (pos mask i j) by lia.
    repeat split; try lia.
    + apply Hx. exists j. repeat split; try assumption. lia.
    + rewrite plane_at_pos by assumption. exact Ho.
Qed.

(** The moving and the stationary bits never meet. *)
Lemma pdep_step_disjoint i x :
  (i < 6)%nat -> placed mask src (S i) x ->
  Z.land (pdep_stay masks x i) (pdep_move masks x i) = 0.
Proof.
  intros Hi Hpl. apply bit_of_ext.
  - apply Z.land_nonneg. left. unfold pdep_stay.
    apply Z.land_nonneg. left. apply in_range_nonneg, Hpl.
  - lia.
  - intros q. rewrite bit_of_land. unfold bit_of at 3. rewrite Z.bits_0.
    destruct (bit_of (pdep_stay masks x i) q) eqn:Hs; [|reflexivity].
    destruct (bit_of (pdep_move masks x i) q) eqn:Hm; [|reflexivity].
    exfalso.
    apply (pdep_stay_bits i x q Hi Hpl) in Hs.
    destruct Hs as (j & Hj & _ & _ & -> & Ho).
    unfold pdep_move in Hm. rewrite shiftl_1_nat in Hm.
    rewrite bit_of_shl in Hm by (apply pow2_lt_64, Hi).
    rewrite bit_of_land, bit_of_pdep_bit in Hm by exact Hi.
    apply andb_true_iff in Hm. destruct Hm as [_ Hm].
    apply andb_true_iff in Hm. destruct Hm as [Hle Hm].
    apply andb_true_iff in Hm. destruct Hm as [_ Hm].
    apply Nat.leb_le in Hle.
    replace (pos mask i j - 2 ^ i + 2 ^ i)%nat with (pos mask i j) in Hm by lia.
    rewrite plane_at_pos, Ho in Hm by assumption. discriminate Hm.
Qed.

Lemma pdep_step_lor i x :
  (i < 6)%nat -> placed mask src (S i) x ->
  pdep_step masks x i = Z.lor (pdep_stay masks x i) (pdep_move masks x i).
Proof.
  intros Hi Hpl. unfold pdep_step, U64.add.
  rewrite Z.add_nocarry_lxor, Z.lxor_lor by (apply pdep_step_disjoint; assumption).
  apply wrap_small, lor_in_range.
  - unfold pdep_stay. apply land_in_range_l; [apply Hpl|].
    apply in_range_nonneg, not_in_range.
  - apply shl_in_range.
Qed.

Lemma pdep_step_placed i x :
  (i < 6)%nat -> placed mask src (S i) x ->
  placed mask src i (pdep_step masks x i).
Proof.
  intros Hi Hpl. rewrite pdep_step_lor by assumption. split.
  - apply lor_in_range.
    + unfold pdep_stay. apply land_in_range_l; [apply Hpl|].
      apply in_range_nonneg, not_in_range.
    + apply shl_in_range.
  - intros q. rewrite bit_of_lor, orb_true_iff.
    rewrite pdep_stay_bits, pdep_move_bits by assumption. split.
    + intros [H | H]; destruct H as (j & Hj & Hm & Hs & Hq & _);
        exists j; repeat split; assumption.
    + intros (j & Hj & Hm & Hs & Hq).
      destruct (Nat.odd (c j / 2 ^ i)) eqn:Ho; [right | left];
        exists j; repeat split; assumption.
Qed.

(** The loop runs [i = 5, 4, ..., 0]; after the iterations [5 .. 6-k] the
    state is placed at level [6-k]. *)
Lemma pdep_fold_placed k x :
  (k <= 6)%nat -> placed mask src 6 x ->
  placed mask src (6 - k)
    (fold_left (pdep_step masks) (firstn k (rev (seq 0 6))) x).
Proof.
  intros Hk H6. induction k as [|k IH]; [exact H6|].
  assert (E : firstn (S k) (rev (seq 0 6)) = firstn k (rev (seq 0 6)) ++ [(5 - k)%nat]).
  { do 6 (destruct k as [|k]; [reflexivity|]). lia. }
  rewrite E, fold_left_app. cbn [fold_left].
  replace (6 - S k)%nat with (5 - k)%nat by lia.
  apply pdep_step_placed; [lia|].
  replace (S (5 - k)) with (6 - k)%nat by lia. apply IH. lia.
Qed.

End Scatter.

(** ** The SWAR population count, byte by byte *)

Section Swar.

Lemma testbit_small d k n : 0 <= d < 2 ^ k -> 0 <= k <= n -> Z.testbit d n = false.
Proof.
  intros Hd Hk. rewrite <- (Z.mod_small d (2 ^ k)) by exact Hd.
  apply Z.mod_pow2_bits_high. exact Hk.
Qed.

Lemma lt_pow2_of_bits x k :
  0 <= x -> 0 <= k -> (forall n, k <= n -> Z.testbit x n = false) -> x < 2 ^ k.
Proof.
  intros Hx Hk H.
  destruct (Z.eq_dec x 0) as [-> | Hne]; [apply Z.pow_pos_nonneg; lia|].
  apply Z.log2_lt_pow2; [lia|].
  destruct (Z.lt_ge_cases (Z.log2 x) k) as [Hl | Hl]; [exact Hl|].
  specialize (H (Z.log2 x) Hl). rewrite Z.bit_log2 in H by lia. discriminate H.
Qed.

Lemma land_byte a d : is_byte a -> 0 <= d -> is_byte (Z.land a d).
Proof.
  intros Ha Hd. unfold is_byte in *. split.
  - apply Z.land_nonneg. left. lia.
  - apply (lt_pow2_of_bits _ 8); [apply Z.land_nonneg; lia | lia|].
    intros n Hn. rewrite Z.land_spec, (testbit_small a 8 n) by lia. reflexivity.
Qed.

Lemma land_byte_r a d : 0 <= a -> is_byte d -> is_byte (Z.land a d).
Proof. intros Ha Hd. rewrite Z.land_comm. apply land_byte; assumption. Qed.

(** Bits of a byte put below a word. *)
Lemma concat_bit a B n :
  is_byte a -> 0 <= n ->
  Z.testbit (a + 256 * B) n = if n <? 8 then Z.testbit a n else Z.testbit B (n - 8).
Proof.
  intros Ha Hn. unfold is_byte in Ha.
  assert (Em : (a + 256 * B) mod 2 ^ 8 = a).
  { change (2 ^ 8) with 256. rewrite Z.mul_comm, Z.mod_add by lia.
    apply Z.mod_small. lia. }
  assert (Ed : (a + 256 * B) / 2 ^ 8 = B).
  { change (2 ^ 8) with 256. rewrite Z.mul_comm, Z.div_add by lia.
    rewrite Z.div_small by lia. lia. }
  destruct (Z.ltb_spec n 8) as [H | H].
  - rewrite <- (Z.mod_pow2_bits_low (a + 256 * B) 8 n) by exact H.
    rewrite Em. reflexivity.
  - rewrite <- Ed at 2. rewrite Z.div_pow2_bits by lia.
    f_equal. lia.
Qed.

Lemma concat_land a B d D :
  is_byte a -> is_byte d ->
  Z.land (a + 256 * B) (d + 256 * D) = Z.land a d + 256 * Z.land B D.
Proof.
  intros Ha Hd. apply Z.bits_inj'. intros n Hn.
  rewrite Z.land_spec, !concat_bit; try assumption.
  - destruct (n <? 8); rewrite Z.land_spec; reflexivity.
  - apply land_byte; [exact Ha | unfold is_byte in Hd; lia].
Qed.

Lemma concat_shr_land a B d D s :
  is_byte a -> 0 <= s <= 8 -> 0 <= d < 2 ^ (8 - s) ->
  Z.land (Z.shiftr (a + 256 * B) s) (d + 256 * D)
  = Z.land (Z.shiftr a s) d + 256 * Z.land (Z.shiftr B s) D.
Proof.
  intros Ha Hs Hd.
  assert (Hd8 : is_byte d).
  { unfold is_byte. split; [lia|].
    apply Z.lt_le_trans with (2 ^ (8 - s)); [lia|].
    change 256 with (2 ^ 8). apply Z.pow_le_mono_r; lia. }
  apply Z.bits_inj'. intros n Hn.
  rewrite Z.land_spec, Z.shiftr_spec by exact Hn.
  rewrite !concat_bit; try assumption; try lia.
  - destruct (Z.ltb_spec n 8) as [H | H].
    + rewrite Z.land_spec, Z.shiftr_spec by exact Hn.
      destruct (Z.ltb_spec (n + s) 8) as [H' | H']; [reflexivity|].
      rewrite (testbit_small d (8 - s) n) by lia.
      rewrite !andb_false_r. reflexivity.
    + destruct (Z.ltb_spec (n + s) 8) as [H' | H']; [lia|].
      rewrite Z.land_spec, Z.shiftr_spec by lia.
      do 2 f_equal. lia.
  - apply land_byte_r; [|exact Hd8]. apply Z.shiftr_nonneg. unfold is_byte in Ha. lia.
Qed.

Lemma bytes_val_range bs :
  Forall is_byte bs -> 0 <= bytes_val bs < 256 ^ Z.of_nat (length bs).
Proof.
  induction 1 as [|b bs Hb _ IH]; cbn [bytes_val length].
  - simpl. lia.
  - rewrite Nat2Z.inj_succ, Z.pow_succ_r by lia. unfold is_byte in Hb. lia.
Qed.

Lemma bytes_val_in_range bs :
  length bs = 8%nat -> Forall is_byte bs -> U64.in_range (bytes_val bs).
Proof.
  intros Hl Hb. pose proof (bytes_val_range bs Hb) as H. rewrite Hl in H.
  exact H.
Qed.

Lemma bytes_of_val n : forall x,
  0 <= x < 256 ^ Z.of_nat n ->
  bytes_val (bytes_of n x) = x /\ Forall is_byte (bytes_of n x) /\
  length (bytes_of n x) = n.
Proof.
  induction n as [|n IH]; intros x Hx.
  - simpl in *. repeat split; [lia | constructor].
  - rewrite Nat2Z.inj_succ, Z.pow_succ_r in Hx by lia.
    destruct (IH (x / 256)) as (E & F & L).
    { split; [apply Z.div_pos; lia | apply Z.div_lt_upper_bound; lia]. }
    cbn [bytes_of bytes_val length]. rewrite E. repeat split.
    + pose proof (Z.div_mod x 256). lia.
    + constructor; [apply Z.mod_pos_bound; lia | exact F].
    + rewrite L. reflexivity.
Qed.

Lemma land_rep bs d :
  Forall is_byte bs -> is_byte d ->
  Z.land (bytes_val bs) (bytes_val (repeat d (length bs)))
  = bytes_val (map (fun b => Z.land b d) bs).
Proof.
  intros Hb Hd. induction Hb as [|b bs Hb _ IH]; [reflexivity|].
  cbn [bytes_val length repeat map].
  rewrite concat_land, IH by assumption. reflexivity.
Qed.

Lemma shr_land_rep bs d s :
  Forall is_byte bs -> 0 <= s <= 8 -> 0 <= d < 2 ^ (8 - s) ->
  Z.land (Z.shiftr (bytes_val bs) s) (bytes_val (repeat d (length bs)))
  = bytes_val (map (fun b => Z.land (Z.shiftr b s) d) bs).
Proof.
  intros Hb Hs Hd. induction Hb as [|b bs Hb _ IH].
  - simpl. rewrite Z.shiftr_0_l. reflexivity.
  - cbn [bytes_val length repeat map].
    rewrite concat_shr_land, IH by assumption. reflexivity.
Qed.

Lemma bytes_val_sub (bs : list Z) (f g : Z -> Z) :
  bytes_val (map f bs) - bytes_val (map g bs)
  = bytes_val (map (fun b => f b - g b) bs).
Proof.
  induction bs as [|b bs IH]; cbn [bytes_val map]; [reflexivity | rewrite <- IH; ring].
Qed.

Lemma bytes_val_add (bs : list Z) (f g : Z -> Z) :
  bytes_val (map f bs) + bytes_val (map g bs)
  = bytes_val (map (fun b => f b + g b) bs).
Proof.
  induction bs as [|b bs IH]; cbn [bytes_val map]; [reflexivity | rewrite <- IH; ring].
Qed.

(** The enumeration over the 256 bytes. *)
Lemma byte_check_all :
  forallb (fun n => byte_check (Z.of_nat n)) (seq 0 256) = true.
Proof. vm_compute. reflexivity. Qed.

Lemma byte_check_ok b : is_byte b -> byte_check b = true.
Proof.
  intros Hb. unfold is_byte in Hb.
  pose proof byte_check_all as H. rewrite forallb_forall in H.
  specialize (H (Z.to_nat b)). rewrite Z2Nat.id in H by lia.
  apply H, in_seq. lia.
Qed.

Lemma byte_facts b :
  is_byte b ->
  is_byte (swar1 b) /\ nibbles_ok (swar2 (swar1 b)) /\
  swar3 (swar2 (swar1 b)) = Z.of_nat (count_below (bit_of b) 8).
Proof.
  intros Hb. pose proof (byte_check_ok b Hb) as H. unfold byte_check in H.
  cbv zeta in H. rewrite !andb_true_iff in H.
  destruct H as (((((H1 & H2) & H3) & H4) & H5) & H6).
  apply Z.leb_le in H1, H3, H4, H5. apply Z.ltb_lt in H2. apply Z.eqb_eq in H6.
  unfold is_byte, nibbles_ok. repeat split; assumption.
Qed.

Lemma nibbles_ok_byte b : nibbles_ok b -> 0 <= b < 80.
Proof.
  unfold nibbles_ok. intros (H0 & H1 & H2).
  pose proof (Z.div_mod b 16). pose proof (Z.mod_pos_bound b 16). lia.
Qed.

Lemma bytes_val_mod16 bs :
  Forall nibbles_ok bs -> 0 <= bytes_val bs /\ bytes_val bs mod 16 <= 4.
Proof.
  intros H. destruct H as [|b bs Hb Hbs]; cbn [bytes_val];
    [split; [lia | discriminate]|].
  assert (H0 : 0 <= bytes_val bs).
  { clear Hb. induction Hbs as [|b' bs' Hb' _ IH]; cbn [bytes_val]; [lia|].
    apply nibbles_ok_byte in Hb'. lia. }
  destruct Hb as (Hb0 & Hb1 & Hb2). split; [lia|].
  replace (b + 256 * bytes_val bs) with (b + (16 * bytes_val bs) * 16) by ring.
  rewrite Z.mod_add by lia. exact Hb1.
Qed.

(** The third step adds neighbouring nibbles; nothing carries into the next
    byte because every nibble is at most 4. *)
Lemma swar3_bytes bs :
  Forall nibbles_ok bs ->
  Z.land (bytes_val bs + Z.shiftr (bytes_val bs) 4)
         (bytes_val (repeat 0x0f (length bs)))
  = bytes_val (map swar3 bs).
Proof.
  induction 1 as [|b bs Hb Hbs IH]; [reflexivity|].
  cbn [bytes_val length repeat map].
  pose proof (bytes_val_mod16 bs Hbs) as [HY0 HY].
  pose proof (nibbles_ok_byte b Hb) as Hb80.
  destruct Hb as (_ & Hb1 & Hb2).
  set (Y := bytes_val bs) in *.
  assert (Esh : Z.shiftr (b + 256 * Y) 4 = b / 16 + 16 * Y).
  { rewrite Z.shiftr_div_pow2 by lia. change (2 ^ 4) with 16.
    replace (b + 256 * Y) with (b + (16 * Y) * 16) by ring.
    rewrite Z.div_add by lia. reflexivity. }
  assert (EY : Z.shiftr Y 4 = Y / 16).
  { rewrite Z.shiftr_div_pow2 by lia. reflexivity. }
  rewrite Esh.
  replace (b + 256 * Y + (b / 16 + 16 * Y))
    with ((b + b / 16 + 16 * (Y mod 16)) + 256 * (Y + Z.shiftr Y 4))
    by (rewrite EY; pose proof (Z.div_mod Y 16); lia).
  pose proof (Z.mod_pos_bound Y 16).
  pose proof (Z.div_pos b 16).
  rewrite concat_land by (unfold is_byte; lia).
  rewrite IH. f_equal. unfold swar3.
  change 15 with (Z.ones 4). rewrite !Z.land_ones by lia.
  rewrite Z.shiftr_div_pow2 by lia. change (2 ^ 4) with 16.
  rewrite (Z.mul_comm 16), Z.mod_add by lia. reflexivity.
Qed.

(** The final multiplication sums the eight byte counts into the top byte. *)
Lemma mul_top_byte d0 d1 d2 d3 d4 d5 d6 d7 :
  0 <= d0 <= 8 -> 0 <= d1 <= 8 -> 0 <= d2 <= 8 -> 0 <= d3 <= 8 ->
  0 <= d4 <= 8 -> 0 <= d5 <= 8 -> 0 <= d6 <= 8 -> 0 <= d7 <= 8 ->
  U64.shr (U64.mul (bytes_val [d0; d1; d2; d3; d4; d5; d6; d7])
                   0x0101010101010101) 56
  = d0 + d1 + d2 + d3 + d4 + d5 + d6 + d7.
Proof.
  intros H0 H1 H2 H3 H4 H5 H6 H7.
  unfold U64.shr, U64.mul, U64.wrap. change (56 mod 64) with 56.
  rewrite Z.shiftr_div_pow2 by lia.
  set (S := d0 + d1 + d2 + d3 + d4 + d5 + d6 + d7).
  set (L := d0 + 256 * ((d0 + d1) + 256 * ((d0 + d1 + d2)
            + 256 * ((d0 + d1 + d2 + d3) + 256 * ((d0 + d1 + d2 + d3 + d4)
            + 256 * ((d0 + d1 + d2 + d3 + d4 + d5)
            + 256 * (d0 + d1 + d2 + d3 + d4 + d5 + d6))))))).
  set (H := (d1 + d2 + d3 + d4 + d5 + d6 + d7)
            + 256 * ((d2 + d3 + d4 + d5 + d6 + d7)
            + 256 * ((d3 + d4 + d5 + d6 + d7) + 256 * ((d4 + d5 + d6 + d7)
            + 256 * ((d5 + d6 + d7) + 256 * ((d6 + d7) + 256 * d7)))))).
  assert (E : bytes_val [d0; d1; d2; d3; d4; d5; d6; d7] * 0x0101010101010101
              = 2 ^ 64 * H + (L + 2 ^ 56 * S)).
  { cbn [bytes_val]. unfold S, L, H. change (2 ^ 64) with 18446744073709551616.
    change (2 ^ 56) with 72057594037927936. ring. }
  assert (HL : 0 <= L < 2 ^ 56).
  { unfold L. change (2 ^ 56) with 72057594037927936. lia. }
  assert (HS : 0 <= S <= 64) by (unfold S; lia).
  rewrite <- (Z.mod_unique _ (2 ^ 64) H (L + 2 ^ 56 * S)); [| |exact E].
  - symmetry. apply (Z.div_unique _ (2 ^ 56) S L); [left; exact HL | ring].
  - left. change (2 ^ 64) with (2 ^ 56 * 256). lia.
Qed.

End Swar.

(** ** [popcnt_64] counts the set bits *)

Section Popcount.

Lemma land_wrap_l y m : U64.in_range m -> Z.land (U64.wrap y) m = Z.land y m.
Proof.
  intros Hm. unfold U64.wrap. rewrite <- Z.land_ones by lia.
  rewrite <- Z.land_assoc. f_equal.
  rewrite Z.land_comm, Z.land_ones by lia. apply Z.mod_small, Hm.
Qed.

Lemma swar_step1 bs :
  length bs = 8%nat -> Forall is_byte bs -> Forall is_byte (map swar1 bs) ->
  U64.sub (bytes_val bs) (Z.land (U64.shr (bytes_val bs) 1) 0x5555555555555555)
  = bytes_val (map swar1 bs).
Proof.
  intros Hl Hb Hb1. unfold U64.sub, U64.shr. change (1 mod 64) with 1.
  replace 0x5555555555555555 with (bytes_val (repeat 0x55 (length bs)))
    by (rewrite Hl; reflexivity).
  rewrite shr_land_rep by (try assumption; change (2 ^ (8 - 1)) with 128; lia).
  rewrite <- (map_id bs) at 1. rewrite bytes_val_sub.
  apply wrap_small, bytes_val_in_range; [rewrite length_map; exact Hl | exact Hb1].
Qed.

Lemma swar_step2 bs :
  length bs = 8%nat -> Forall is_byte bs -> Forall is_byte (map swar2 bs) ->
  U64.add (Z.land (bytes_val bs) 0x3333333333333333)
          (Z.land (U64.shr (bytes_val bs) 2) 0x3333333333333333)
  = bytes_val (map swar2 bs).
Proof.
  intros Hl Hb Hb2. unfold U64.add, U64.shr. change (2 mod 64) with 2.
  replace 0x3333333333333333 with (bytes_val (repeat 0x33 (length bs)))
    by (rewrite Hl; reflexivity).
  rewrite land_rep by (try assumption; unfold is_byte; lia).
  rewrite shr_land_rep by (try assumption; change (2 ^ (8 - 2)) with 64; lia).
  rewrite bytes_val_add.
  apply wrap_small, bytes_val_in_range; [rewrite length_map; exact Hl | exact Hb2].
Qed.

Lemma swar_step3 bs :
  length bs = 8%nat -> Forall nibbles_ok bs ->
  Z.land (U64.add (bytes_val bs) (U64.shr (bytes_val bs) 4)) 0x0f0f0f0f0f0f0f0f
  = bytes_val (map swar3 bs).
Proof.
  intros Hl Hb. unfold U64.add, U64.shr. change (4 mod 64) with 4.
  rewrite land_wrap_l by (unfold U64.in_range; lia).
  replace 0x0f0f0f0f0f0f0f0f with (bytes_val (repeat 0x0f (length bs)))
    by (rewrite Hl; reflexivity).
  apply swar3_bytes, Hb.
Qed.

Lemma count_below_le f n : (count_below f n <= n)%nat.
Proof. induction n as [|n IH]; simpl; [lia | destruct (f n); lia]. Qed.

Lemma count_below_ext f g n :
  (forall j, (j < n)%nat -> f j = g j) -> count_below f n = count_below g n.
Proof.
  induction n as [|n IH]; intros H; simpl; [reflexivity|].
  rewrite IH by (intros; apply H; lia). rewrite H by lia. reflexivity.
Qed.

Lemma count_below_add f m n :
  (count_below f (m + n) = count_below f m + count_below (fun j => f (m + j)) n)%nat.
Proof.
  induction n as [|n IH]; [rewrite Nat.add_0_r; simpl; lia|].
  rewrite Nat.add_succ_r. simpl. rewrite IH. lia.
Qed.

Lemma bit_of_concat a B j :
  is_byte a ->
  bit_of (a + 256 * B) j = if (j <? 8)%nat then bit_of a j else bit_of B (j - 8).
Proof.
  intros Ha. unfold bit_of. rewrite concat_bit by (try assumption; lia).
  destruct (Nat.ltb_spec j 8) as [H | H].
  - replace (Z.of_nat j <? 8) with true by (symmetry; apply Z.ltb_lt; lia).
    reflexivity.
  - replace (Z.of_nat j <? 8) with false by (symmetry; apply Z.ltb_ge; lia).
    f_equal. lia.
Qed.

Lemma count_concat a B n :
  is_byte a ->
  (count_below (bit_of (a + 256 * B)) (8 + n)
   = count_below (bit_of a) 8 + count_below (bit_of B) n)%nat.
Proof.
  intros Ha. rewrite count_below_add. f_equal.
  - apply count_below_ext. intros j Hj. rewrite bit_of_concat by exact Ha.
    replace (j <? 8)%nat with true by (symmetry; apply Nat.ltb_lt; exact Hj).
    reflexivity.
  - apply count_below_ext. intros j _. rewrite bit_of_concat by exact Ha.
    replace (8 + j <? 8)%nat with false by (symmetry; apply Nat.ltb_ge; lia).
    f_equal. lia.
Qed.

(** The SWAR population count returns the number of set bits. *)
Lemma popcnt_64_spec x : U64.in_range x -> popcnt_64 x = Z.of_nat (popcount x).
Proof.
  intros Hx. destruct (bytes_of_val 8 x Hx) as (E & F & L).
  rewrite <- E. set (bs := bytes_of 8 x) in *. clearbody bs. clear E Hx x.
  assert (F1 : Forall is_byte (map swar1 bs)).
  { apply Forall_map. eapply Forall_impl; [|exact F]. intros b Hb.
    apply byte_facts, Hb. }
  assert (F2 : Forall nibbles_ok (map swar2 (map swar1 bs))).
  { rewrite map_map. apply Forall_map. eapply Forall_impl; [|exact F].
    intros b Hb. apply byte_facts, Hb. }
  assert (F2' : Forall is_byte (map swar2 (map swar1 bs))).
  { eapply Forall_impl; [|exact F2]. intros b Hb.
    apply nibbles_ok_byte in Hb. unfold is_byte. lia. }
  unfold popcnt_64. cbv zeta.
  rewrite swar_step1 by assumption.
  rewrite swar_step2 by (try assumption; rewrite length_map; exact L).
  rewrite swar_step3 by (try assumption; rewrite !length_map; exact L).
  do 9 (destruct bs as [|? bs]; try discriminate L). clear L F1 F2 F2'.
  repeat match goal with
         | H : Forall is_byte (_ :: _) |- _ =>
             let Hb := fresh "Hb" in
             apply Forall_cons_iff in H; destruct H as [Hb H];
             pose proof (byte_facts _ Hb) as (_ & _ & ?)
         end.
  cbn [map].
  repeat match goal with
         | H : swar3 _ = _ |- _ => rewrite H; clear H
         end.
  rewrite mul_top_byte
    by (match goal with
        | |- _ <= Z.of_nat (count_below ?f 8) <= _ =>
            pose proof (count_below_le f 8); lia
        end).
  unfold popcount. cbn [bytes_val].
  change 64%nat with (8 + (8 + (8 + (8 + (8 + (8 + (8 + (8 + 0))))))))%nat.
  rewrite !count_concat by assumption.
  cbn [count_below]. lia.
Qed.

Lemma popcount_le_64 x : (popcount x <= 64)%nat.
Proof. apply count_below_le. Qed.

End Popcount.

(** ** The pre-masking of the scatter input *)

Section Premask.

Lemma pop_mask_small p : 0 <= p < 64 -> pop_mask p = 2 ^ p.
Proof.
  intros Hp. unfold pop_mask, U64.shl, U64.shr, U64.not.
  change (6 mod 64) with 6. rewrite Z.shiftr_div_pow2 by lia.
  change (2 ^ 6) with 64. rewrite Z.div_small by exact Hp.
  rewrite Z.mod_small by exact Hp. rewrite Z.shiftl_1_l.
  change (U64.wrap (Z.lnot 0)) with (Z.ones 64).
  assert (H : 0 <= 2 ^ p < 2 ^ 64).
  { split; [apply Z.pow_nonneg; lia | apply Z.pow_lt_mono_r; lia]. }
  unfold U64.wrap. rewrite (Z.mod_small _ _ H).
  rewrite Z.land_ones by lia. apply Z.mod_small, H.
Qed.

Lemma pop_mask_64 : pop_mask 64 = 0.
Proof. reflexivity. Qed.

Lemma pdep_premask_spec a p :
  U64.in_range a -> 0 <= p <= 64 -> pdep_premask a p = a mod 2 ^ p.
Proof.
  intros Ha Hp. unfold pdep_premask.
  destruct (Z.eq_dec p 64) as [-> | Hne].
  - rewrite pop_mask_64. change (U64.sub 0 1) with (Z.ones 64).
    apply Z.land_ones. lia.
  - rewrite pop_mask_small by lia. unfold U64.sub, U64.wrap.
    assert (H : 0 < 2 ^ p < 2 ^ 64).
    { split; [apply Z.pow_pos_nonneg; lia | apply Z.pow_lt_mono_r; lia]. }
    rewrite Z.mod_small by lia.
    replace (2 ^ p - 1) with (Z.ones p) by (rewrite Z.ones_equiv; lia).
    apply Z.land_ones. lia.
Qed.

Lemma bit_of_mod_pow2 a (p q : nat) :
  bit_of (a mod 2 ^ Z.of_nat p) q = (q <? p)%nat && bit_of a q.
Proof.
  unfold bit_of. rewrite Z.testbit_mod_pow2 by lia. f_equal.
  destruct (Nat.ltb_spec q p); [apply Z.ltb_lt | apply Z.ltb_ge]; lia.
Qed.

End Premask.

(** ** Ranks of the set mask bits *)

Section Ranks.

Variable f : nat -> bool.

Lemma count_below_mono j n : (j <= n)%nat -> (count_below f j <= count_below f n)%nat.
Proof.
  induction 1 as [|n _ IH]; [lia|]. simpl. lia.
Qed.

Lemma count_below_lt j n :
  f j = true -> (j < n)%nat -> (count_below f j < count_below f n)%nat.
Proof.
  intros Hj Hn. pose proof (count_below_mono (S j) n Hn) as H.
  simpl in H. rewrite Hj in H. lia.
Qed.

(** Two selected positions of the same rank are the same position. *)
Lemma count_below_inj j j' :
  f j = true -> f j' = true -> count_below f j = count_below f j' -> j = j'.
Proof.
  intros Hj Hj' E. destruct (Nat.lt_trichotomy j j') as [H | [H | H]].
  - pose proof (count_below_lt j j' Hj H). lia.
  - exact H.
  - pose proof (count_below_lt j' j Hj' H). lia.
Qed.

(** Every rank below the total is the rank of a selected position. *)
Lemma count_below_select n q :
  (q < count_below f n)%nat ->
  exists j, (j < n)%nat /\ f j = true /\ count_below f j = q.
Proof.
  induction n as [|n IH]; simpl; intros Hq; [lia|].
  destruct (Nat.lt_ge_cases q (count_below f n)) as [H | H].
  - destruct (IH H) as (j & Hj & Hf & E). exists j. repeat split; try assumption. lia.
  - destruct (f n) eqn:Hn; [|lia]. exists n. repeat split; try assumption; lia.
Qed.

End Ranks.

(** ** Bits of the results *)

Section Results.

Lemma bool_iff_eq (b1 b2 : bool) (P : Prop) :
  (b1 = true <-> P) -> (b2 = true <-> P) -> b1 = b2.
Proof.
  intros H1 H2. destruct b1, b2; try reflexivity.
  - symmetry. apply H2, H1. reflexivity.
  - apply H1, H2. reflexivity.
Qed.

Lemma bit_of_setbit x (k q : nat) :
  bit_of (Z.setbit x (Z.of_nat k)) q = (k =? q)%nat || bit_of x q.
Proof.
  unfold bit_of. rewrite Z.setbit_eqb by lia. f_equal.
  destruct (Nat.eqb_spec k q); [apply Z.eqb_eq | apply Z.eqb_neq]; lia.
Qed.

Lemma pext_placed a mask :
  U64.in_range a -> U64.in_range mask ->
  placed mask (bit_of a) 6 (zp7_pext_64 a mask).
Proof.
  intros Ha Hm. unfold zp7_pext_64, zp7_pext_pre_64.
  apply (pext_fold_placed mask (bit_of a) 6); [lia|].
  rewrite zp7_ppp_64_mask. split.
  - apply land_in_range_l; [exact Ha | apply in_range_nonneg, Hm].
  - intros q. rewrite bit_of_land, andb_true_iff. split.
    + intros [Hq Hmq]. exists q. rewrite pos_0. repeat split; try assumption.
      destruct (Nat.lt_ge_cases q 64) as [H | H]; [exact H|].
      rewrite (bit_of_high a q Ha H) in Hq. discriminate Hq.
    + intros (j & _ & Hmj & Haj & ->). rewrite pos_0. split; assumption.
Qed.

(** Output bit [q] of the gather is set exactly when [q] is the rank of a
    selected position whose input bit is set. *)
Lemma pext_bits a mask q :
  U64.in_range a -> U64.in_range mask ->
  bit_of (zp7_pext_64 a mask) q = true <->
  exists j, (j < 64)%nat /\ bit_of mask j = true /\ bit_of a j = true /\
            q = set_below mask j.
Proof.
  intros Ha Hm. destruct (pext_placed a mask Ha Hm) as [_ H].
  rewrite H. split; intros (j & Hj & Hmj & Haj & ->); exists j;
    repeat split; try assumption; [|symmetry]; apply pos_6, Hj.
Qed.

Lemma pext_in_range a mask :
  U64.in_range a -> U64.in_range mask -> U64.in_range (zp7_pext_64 a mask).
Proof. intros Ha Hm. apply (pext_placed a mask Ha Hm). Qed.

Lemma pext_bit_at_rank a mask j :
  U64.in_range a -> U64.in_range mask -> (j < 64)%nat -> bit_of mask j = true ->
  bit_of (zp7_pext_64 a mask) (set_below mask j) = bit_of a j.
Proof.
  intros Ha Hm Hj Hmj. destruct (bit_of a j) eqn:Haj.
  - apply pext_bits; try assumption. exists j. repeat split; assumption.
  - destruct (bit_of (zp7_pext_64 a mask) (set_below mask j)) eqn:E; [|reflexivity].
    apply pext_bits in E; try assumption.
    destruct E as (j' & _ & Hmj' & Haj' & E).
    apply count_below_inj in E; try assumption. subst j'. congruence.
Qed.

Lemma pext_bit_high a mask q :
  U64.in_range a -> U64.in_range mask -> (popcount mask <= q)%nat ->
  bit_of (zp7_pext_64 a mask) q = false.
Proof.
  intros Ha Hm Hq.
  destruct (bit_of (zp7_pext_64 a mask) q) eqn:E; [|reflexivity].
  apply pext_bits in E; try assumption.
  destruct E as (j & Hj & Hmj & _ & ->).
  pose proof (count_below_lt (bit_of mask) j 64 Hmj Hj) as H.
  unfold popcount, set_below in *. lia.
Qed.

Lemma pdep_state_6 a masks : pdep_state a masks 6 = zp7_pdep_pre_64 a masks.
Proof.
  unfold pdep_state, zp7_pdep_pre_64.
  replace (firstn 6 (rev (seq 0 N_BITS))) with (rev (seq 0 N_BITS)) by reflexivity.
  reflexivity.
Qed.

Lemma premask_placed a mask :
  U64.in_range a -> U64.in_range mask ->
  placed mask (fun j => bit_of a (set_below mask j)) 6
    (pdep_premask a (popcnt_64 mask)).
Proof.
  intros Ha Hm. rewrite popcnt_64_spec by exact Hm.
  pose proof (popcount_le_64 mask) as Hp.
  rewrite pdep_premask_spec by (try assumption; lia). split.
  - unfold U64.in_range in *.
    pose proof (Z.mod_pos_bound a (2 ^ Z.of_nat (popcount mask))
                  ltac:(apply Z.pow_pos_nonneg; lia)) as B.
    assert (2 ^ Z.of_nat (popcount mask) <= 2 ^ 64)
      by (apply Z.pow_le_mono_r; lia).
    lia.
  - intros q. rewrite bit_of_mod_pow2, andb_true_iff, Nat.ltb_lt. split.
    + intros [Hq Haq].
      destruct (count_below_select (bit_of mask) 64 q Hq) as (j & Hj & Hmj & E).
      exists j. rewrite pos_6 by exact Hj. unfold set_below. rewrite E.
      repeat split; assumption.
    + intros (j & Hj & Hmj & Haj & ->). rewrite pos_6 by exact Hj.
      split; [|exact Haj].
      apply (count_below_lt (bit_of mask) j 64 Hmj Hj).
Qed.

(** On entry to iteration [i = 5 - k] of the scatter loop the bits sit at
    level [6 - k]. *)
Lemma pdep_state_placed a mask k :
  U64.in_range a -> U64.in_range mask -> (k <= 6)%nat ->
  placed mask (fun j => bit_of a (set_below mask j)) (6 - k)
    (pdep_state a (zp7_ppp_64 mask) k).
Proof.
  intros Ha Hm Hk. unfold pdep_state.
  apply (pdep_fold_placed mask _ k); [exact Hk|].
  apply premask_placed; assumption.
Qed.

Lemma pdep_in_range a mask :
  U64.in_range a -> U64.in_range mask -> U64.in_range (zp7_pdep_64 a mask).
Proof.
  intros Ha Hm. unfold zp7_pdep_64. rewrite <- pdep_state_6.
  apply (pdep_state_placed a mask 6 Ha Hm). lia.
Qed.

(** Output bit [q] of the scatter is the input bit of rank [q], at the
    positions the mask selects, and zero elsewhere. *)
Lemma pdep_bits a mask q :
  U64.in_range a -> U64.in_range mask ->
  bit_of (zp7_pdep_64 a mask) q
  = (q <? 64)%nat && bit_of mask q && bit_of a (set_below mask q).
Proof.
  intros Ha Hm.
  destruct (pdep_state_placed a mask 6 Ha Hm) as [_ H]; [lia|].
  rewrite pdep_state_6 in H. change (6 - 6)%nat with O in H.
  unfold zp7_pdep_64.
  eapply bool_iff_eq; [apply H|].
  rewrite !andb_true_iff, Nat.ltb_lt. split.
  - intros [[Hq Hmq] Haq]. exists q. rewrite pos_0. repeat split; assumption.
  - intros (j & Hj & Hmj & Haj & ->). rewrite pos_0. repeat split; assumption.
Qed.

(** The reference loops. *)
Lemma pext_ref_fold a mask n :
  let st := fold_left (pext_ref_step a mask) (seq 0 n) (O, 0) in
  fst st = set_below mask n /\ 0 <= snd st /\
  forall q, bit_of (snd st) q = true <->
    exists j, (j < n)%nat /\ bit_of mask j = true /\ bit_of a j = true /\
              q = set_below mask j.
Proof.
  induction n as [|n IH]; cbv zeta.
  - simpl. repeat split; [lia | |].
    + unfold bit_of. rewrite Z.bits_0. discriminate.
    + intros (j & Hj & _). lia.
  - rewrite seq_S, fold_left_app. cbn [fold_left Nat.add].
    destruct (fold_left (pext_ref_step a mask) (seq 0 n) (O, 0)) as [k dest].
    cbv zeta in IH. cbn [fst snd] in IH. destruct IH as (Ek & H0 & Hb).
    unfold pext_ref_step, set_below in *. cbn [count_below].
    destruct (bit_of mask n) eqn:Hmn; cbn [fst snd].
    + split; [lia|].
      destruct (bit_of a n) eqn:Han.
      * split; [rewrite Z.setbit_spec'; apply Z.lor_nonneg; split;
                  [exact H0 | apply Z.pow_nonneg; lia]|].
        intros q. rewrite bit_of_setbit, orb_true_iff, Nat.eqb_eq, Hb. split.
        -- intros [E | (j & Hj & R)].
           ++ exists n. repeat split; try assumption; lia.
           ++ exists j. split; [lia | exact R].
        -- intros (j & Hj & Hmj & Haj & E).
           destruct (Nat.eq_dec j n) as [-> | Hne]; [left; lia|].
           right. exists j. repeat split; try assumption. lia.
      * split; [exact H0|]. intros q. rewrite Hb. split.
        -- intros (j & Hj & R). exists j. split; [lia | exact R].
        -- intros (j & Hj & Hmj & Haj & E).
           destruct (Nat.eq_dec j n) as [-> | Hne]; [congruence|].
           exists j. repeat split; try assumption. lia.
    + split; [lia|]. split; [exact H0|]. intros q. rewrite Hb. split.
      * intros (j & Hj & R). exists j. split; [lia | exact R].
      * intros (j & Hj & Hmj & Haj & E).
        destruct (Nat.eq_dec j n) as [-> | Hne]; [congruence|].
        exists j. repeat split; try assumption. lia.
Qed.

Lemma pdep_ref_fold a mask n :
  let st := fold_left (pdep_ref_step a mask) (seq 0 n) (O, 0) in
  fst st = set_below mask n /\ 0 <= snd st /\
  forall q, bit_of (snd st) q
            = (q <? n)%nat && bit_of mask q && bit_of a (set_below mask q).
Proof.
  induction n as [|n IH]; cbv zeta.
  - simpl. repeat split; [lia|]. intros q. unfold bit_of at 1.
    rewrite Z.bits_0. reflexivity.
  - rewrite seq_S, fold_left_app. cbn [fold_left Nat.add].
    destruct (fold_left (pdep_ref_step a mask) (seq 0 n) (O, 0)) as [k dest].
    cbv zeta in IH. cbn [fst snd] in IH. destruct IH as (Ek & H0 & Hb).
    unfold pdep_ref_step, set_below in *. cbn [count_below].
    assert (Hlt : forall q, q <> n -> (q <? S n)%nat = (q <? n)%nat).
    { intros q Hq. destruct (Nat.ltb_spec q (S n)), (Nat.ltb_spec q n);
        try reflexivity; lia. }
    destruct (bit_of mask n) eqn:Hmn; cbn [fst snd].
    + split; [lia|]. subst k.
      destruct (bit_of a (count_below (bit_of mask) n)) eqn:Han.
      * split; [rewrite Z.setbit_spec'; apply Z.lor_nonneg; split;
                  [exact H0 | apply Z.pow_nonneg; lia]|].
        intros q. rewrite bit_of_setbit, Hb.
        destruct (Nat.eqb_spec n q) as [<- | Hne].
        -- rewrite Hmn, Han. replace (n <? S n)%nat with true
             by (symmetry; apply Nat.ltb_lt; lia). reflexivity.
        -- rewrite Hlt by lia. reflexivity.
      * split; [exact H0|]. intros q. rewrite Hb.
        destruct (Nat.eq_dec q n) as [-> | Hne].
        -- rewrite Han, !andb_false_r. reflexivity.
        -- rewrite Hlt by exact Hne. reflexivity.
    + split; [lia|]. split; [exact H0|]. intros q. rewrite Hb.
      destruct (Nat.eq_dec q n) as [-> | Hne].
      * rewrite Hmn, !andb_false_r. reflexivity.
      * rewrite Hlt by exact Hne. reflexivity.
Qed.

Lemma pext_eq_ref a mask :
  U64.in_range a -> U64.in_range mask -> zp7_pext_64 a mask = pext_ref a mask.
Proof.
  intros Ha Hm. destruct (pext_ref_fold a mask 64) as (_ & H0 & Hb).
  apply bit_of_ext; [apply in_range_nonneg, pext_in_range; assumption | exact H0|].
  intros q. eapply bool_iff_eq; [apply pext_bits; assumption | apply Hb].
Qed.

Lemma pdep_eq_ref a mask :
  U64.in_range a -> U64.in_range mask -> zp7_pdep_64 a mask = pdep_ref a mask.
Proof.
  intros Ha Hm. destruct (pdep_ref_fold a mask 64) as (_ & H0 & Hb).
  apply bit_of_ext; [apply in_range_nonneg, pdep_in_range; assumption | exact H0|].
  intros q. rewrite pdep_bits by assumption. symmetry. apply Hb.
Qed.

End Results.

(** ** The carry-less multiply by [-2] *)

Section Clmul.

Lemma bit_of_shiftl x (n b : nat) :
  bit_of (Z.shiftl x (Z.of_nat n)) b = (n <=? b)%nat && bit_of x (b - n).
Proof.
  unfold bit_of. rewrite Z.shiftl_spec by lia.
  destruct (Nat.leb_spec n b) as [H | H].
  - rewrite Nat2Z.inj_sub by exact H. reflexivity.
  - apply Z.testbit_neg_r. lia.
Qed.

(** Bit [b] of the partial product over the low [n] bits of [y]. *)
Lemma clmul_fold_bits x y n b :
  bit_of (fold_left (clmul_step x y) (seq 0 n) 0) b
  = xor_below (fun i => bit_of y i && ((i <=? b)%nat && bit_of x (b - i))) n.
Proof.
  induction n as [|n IH].
  - simpl. unfold bit_of. apply Z.bits_0.
  - rewrite seq_S, fold_left_app. cbn [fold_left Nat.add xor_below].
    unfold clmul_step at 1. fold (bit_of y n).
    destruct (bit_of y n).
    + rewrite bit_of_lxor, IH, bit_of_shiftl. reflexivity.
    + rewrite IH, xorb_false_r. reflexivity.
Qed.

Lemma neg_2_value : neg_2 = 0xFFFFFFFFFFFFFFFE.
Proof. reflexivity. Qed.

Lemma bit_of_neg_2 i : bit_of neg_2 i = (i <? 64)%nat && negb (i =? 0)%nat.
Proof.
  unfold neg_2. rewrite bit_of_wrap. f_equal.
  change (-2) with (Z.lnot 1). unfold bit_of. rewrite Z.lnot_spec by lia.
  f_equal. destruct i as [|i]; [reflexivity|].
  apply (testbit_small 1 1); lia.
Qed.

Lemma xor_below_tail g m n :
  (m <= n)%nat -> (forall i, (m <= i < n)%nat -> g i = false) ->
  xor_below g n = xor_below g m.
Proof.
  induction 1 as [|n Hle IH]; intros H; [reflexivity|].
  simpl. rewrite H by lia. rewrite xorb_false_r. apply IH.
  intros i Hi. apply H. lia.
Qed.

(** The partial products of the multiplier [-2] sweep the bits below [b]
    from the top down. *)
Lemma xor_window X b n :
  (n <= b)%nat ->
  xor_below (fun i => bit_of neg_2 i && ((i <=? b)%nat && X (b - i)%nat)) (S n)
  = xorb (xor_below X b) (xor_below X (b - n)) \/ (64 <= b)%nat.
Proof.
  intros Hn. destruct (Nat.lt_ge_cases b 64) as [Hb | Hb]; [left | right; exact Hb].
  induction n as [|n IH].
  - cbn [xor_below]. rewrite bit_of_neg_2, Nat.sub_0_r. simpl.
    rewrite xorb_nilpotent. reflexivity.
  - cbn [xor_below] in *. rewrite IH by lia.
    rewrite bit_of_neg_2.
    replace (S n <? 64)%nat with true by (symmetry; apply Nat.ltb_lt; lia).
    replace (S n <=? b)%nat with true by (symmetry; apply Nat.leb_le; lia).
    cbn [Nat.eqb negb andb].
    replace (b - n)%nat with (S (b - S n)) by lia. cbn [xor_below].
    destruct (xor_below X b), (xor_below X (b - S n)), (X (b - S n)%nat);
      reflexivity.
Qed.

Lemma clmul_neg_2_bits x b :
  (b < 64)%nat -> bit_of (clmul x neg_2) b = xor_below (bit_of x) b.
Proof.
  intros Hb. unfold clmul. rewrite clmul_fold_bits.
  rewrite (xor_below_tail _ (S b) 64) by
    (try lia; intros i Hi;
     replace (i <=? b)%nat with false by (symmetry; apply Nat.leb_gt; lia);
     rewrite andb_false_r; reflexivity).
  destruct (xor_window (bit_of x) b b (Nat.le_refl b)) as [E | E]; [|lia].
  rewrite E, Nat.sub_diag. simpl. apply xorb_false_r.
Qed.

Lemma clmul_neg_2_prefix_sum x :
  U64.in_range x -> U64.wrap (clmul x neg_2) = U64.shl (prefix_sum x) 1.
Proof.
  intros Hx. apply bit_of_ext64; [apply wrap_in_range | apply shl_in_range|].
  intros b Hb. rewrite bit_of_wrap, prefix_sum_shl_spec by assumption.
  replace (b <? 64)%nat with true by (symmetry; apply Nat.ltb_lt; exact Hb).
  apply clmul_neg_2_bits, Hb.
Qed.

Lemma land_wrap_r m y : U64.in_range m -> Z.land m (U64.wrap y) = Z.land m y.
Proof. intros Hm. rewrite !(Z.land_comm m). apply land_wrap_l, Hm. Qed.

Lemma ppp_loop_clmul_eq n : forall m,
  U64.in_range m -> ppp_loop_clmul n m = ppp_loop n m.
Proof.
  induction n as [|n IH]; intros m Hm; [reflexivity|].
  cbn [ppp_loop_clmul ppp_loop].
  replace (U64.wrap neg_2) with neg_2 by reflexivity.
  rewrite (wrap_small m Hm).
  rewrite <- (land_wrap_r m (clmul m neg_2) Hm).
  rewrite clmul_neg_2_prefix_sum by exact Hm.
  f_equal. apply IH.
  apply land_in_range_l; [exact Hm | apply in_range_nonneg, shl_in_range].
Qed.

End Clmul.

(** * The specification's claims *)

Ltac in_range_tac := unfold U64.in_range; lia.

(** C1.  For every 64-bit [a] and [mask], [zp7_pext_64 a mask] is the result
    of the PEXT instruction: the bit of [a] at the selected position [j]
    appears at output bit [set_below mask j] (the rank of [j] among the set
    mask bits, so the mask's bit order is preserved and the packing starts
    at bit 0), and every output bit at index [popcount mask] or above is
    zero. *)
Theorem zp7_pext_64_correct (a mask : Z) :
  U64.in_range a -> U64.in_range mask ->
  zp7_pext_64 a mask = pext_ref a mask /\
  (forall j, (j < 64)%nat -> bit_of mask j = true ->
     bit_of (zp7_pext_64 a mask) (set_below mask j) = bit_of a j) /\
  (forall q, (popcount mask <= q)%nat -> bit_of (zp7_pext_64 a mask) q = false).
Proof.
  intros Ha Hm. split; [apply pext_eq_ref; assumption|]. split.
  - intros j Hj Hmj. apply pext_bit_at_rank; assumption.
  - intros q Hq. apply pext_bit_high; assumption.
Qed.

Lemma zp7_pext_64_correct_witness :
  zp7_pext_64 0x123456789ABCDEF0 0xF0F1F3F70F1F3F7F
  = pext_ref 0x123456789ABCDEF0 0xF0F1F3F70F1F3F7F.
Proof.
  refine (proj1 (zp7_pext_64_correct 0x123456789ABCDEF0 0xF0F1F3F70F1F3F7F _ _));
    in_range_tac.
Defined.

(** C2.  For every 64-bit [a] and [mask], [zp7_pdep_64 a mask] is the result
    of the PDEP instruction: the selected position [j] receives input bit
    [set_below mask j] (the lowest input bit goes to the lowest set mask
    position, and so on in order), and every output bit at a position where
    the mask is unset is zero. *)
Theorem zp7_pdep_64_correct (a mask : Z) :
  U64.in_range a -> U64.in_range mask ->
  zp7_pdep_64 a mask = pdep_ref a mask /\
  (forall j, (j < 64)%nat -> bit_of mask j = true ->
     bit_of (zp7_pdep_64 a mask) j = bit_of a (set_below mask j)) /\
  (forall q, bit_of mask q = false -> bit_of (zp7_pdep_64 a mask) q = false).
Proof.
  intros Ha Hm. split; [apply pdep_eq_ref; assumption|]. split.
  - intros j Hj Hmj. rewrite pdep_bits, Hmj by assumption.
    replace (j <? 64)%nat with true by (symmetry; apply Nat.ltb_lt; exact Hj).
    reflexivity.
  - intros q Hq. rewrite pdep_bits, Hq by assumption.
    rewrite andb_false_r. reflexivity.
Qed.

Lemma zp7_pdep_64_correct_witness :
  zp7_pdep_64 0x123456789ABCDEF0 0xF0F1F3F70F1F3F7F
  = pdep_ref 0x123456789ABCDEF0 0xF0F1F3F70F1F3F7F.
Proof.
  refine (proj1 (zp7_pdep_64_correct 0x123456789ABCDEF0 0xF0F1F3F70F1F3F7F _ _));
    in_range_tac.
Defined.

(** C3.  For every mask, plane index [i] in 0..5 and bit position [b] in
    0..63, bit [b] of [ppp_bit[i]] of [zp7_ppp_64 mask] is binary digit [i]
    of the number of positions strictly below [b] at which the mask is
    unset.  Position [b] itself is not counted: the bit is the same for any
    other mask that agrees with [mask] below [b]. *)
Theorem zp7_ppp_64_planes (mask : Z) (i b : nat) :
  (i < 6)%nat -> (b < 64)%nat ->
  bit_of (nth i (ppp_bit (zp7_ppp_64 mask)) 0) b
  = Nat.testbit (unset_below mask b) i /\
  forall mask', (forall j, (j < b)%nat -> bit_of mask' j = bit_of mask j) ->
    bit_of (nth i (ppp_bit (zp7_ppp_64 mask')) 0) b
    = bit_of (nth i (ppp_bit (zp7_ppp_64 mask)) 0) b.
Proof.
  intros Hi Hb. split; [apply ppp_plane_bit; assumption|].
  intros mask' H. rewrite !ppp_plane_bit by assumption.
  unfold unset_below. f_equal. apply count_below_ext.
  intros j Hj. rewrite H by exact Hj. reflexivity.
Qed.

Lemma zp7_ppp_64_planes_witness :
  bit_of (nth 1 (ppp_bit (zp7_ppp_64 0xF0F1F3F70F1F3F7F)) 0) 20
  = Nat.testbit (unset_below 0xF0F1F3F70F1F3F7F 20) 1.
Proof.
  refine (proj1 (zp7_ppp_64_planes 0xF0F1F3F70F1F3F7F 1 20 _ _)); lia.
Defined.

(** C4.  For every 64-bit [mask] and every 64-bit [value] with
    [value & mask == value], scattering the gathered value gives the value
    back. *)
Theorem pdep_pext_round_trip (value mask : Z) :
  U64.in_range value -> U64.in_range mask -> Z.land value mask = value ->
  zp7_pdep_64 (zp7_pext_64 value mask) mask = value.
Proof.
  intros Hv Hm Hsub.
  pose proof (pext_in_range value mask Hv Hm) as Hp.
  apply bit_of_ext64; [apply pdep_in_range; assumption | exact Hv|].
  intros q Hq. rewrite pdep_bits by assumption.
  replace (q <? 64)%nat with true by (symmetry; apply Nat.ltb_lt; exact Hq).
  destruct (bit_of mask q) eqn:Hmq; cbn [andb].
  - apply pext_bit_at_rank; assumption.
  - rewrite <- Hsub, bit_of_land, Hmq, andb_false_r. reflexivity.
Qed.

Lemma pdep_pext_round_trip_witness :
  zp7_pdep_64 (zp7_pext_64 0x1030507002040608 0xF0F1F3F70F1F3F7F)
    0xF0F1F3F70F1F3F7F = 0x1030507002040608.
Proof.
  apply (pdep_pext_round_trip 0x1030507002040608 0xF0F1F3F70F1F3F7F);
    [in_range_tac | in_range_tac | reflexivity].
Defined.

(** C5.  For every 64-bit [mask] and [value], gathering the scattered value
    gives [value] truncated to its low [popcount mask] bits; when
    [popcount mask] is 64 nothing is truncated. *)
Theorem pext_pdep_truncates (value mask : Z) :
  U64.in_range value -> U64.in_range mask ->
  zp7_pext_64 (zp7_pdep_64 value mask) mask
  = value mod 2 ^ Z.of_nat (popcount mask) /\
  (popcount mask = 64%nat ->
   zp7_pext_64 (zp7_pdep_64 value mask) mask = value).
Proof.
  intros Hv Hm.
  pose proof (pdep_in_range value mask Hv Hm) as Hd.
  assert (E : zp7_pext_64 (zp7_pdep_64 value mask) mask
              = value mod 2 ^ Z.of_nat (popcount mask)).
  { apply bit_of_ext.
    - apply in_range_nonneg, pext_in_range; assumption.
    - apply Z.mod_pos_bound, Z.pow_pos_nonneg; lia.
    - intros q. eapply bool_iff_eq; [apply pext_bits; assumption|].
      rewrite bit_of_mod_pow2, andb_true_iff, Nat.ltb_lt. split.
      + intros [Hq Hvq].
        destruct (count_below_select (bit_of mask) 64 q Hq) as (j & Hj & Hmj & Ej).
        exists j. repeat split; try assumption; [|symmetry; exact Ej].
        rewrite pdep_bits, Hmj by assumption. unfold set_below. rewrite Ej, Hvq.
        replace (j <? 64)%nat with true by (symmetry; apply Nat.ltb_lt; exact Hj).
        reflexivity.
      + intros (j & Hj & Hmj & Hdj & ->).
        rewrite pdep_bits, Hmj in Hdj by assumption.
        apply andb_true_iff in Hdj. destruct Hdj as [_ Hdj].
        split; [|exact Hdj].
        apply (count_below_lt (bit_of mask) j 64 Hmj Hj). }
  split; [exact E|]. intros H64. rewrite E, H64.
  apply Z.mod_small, Hv.
Qed.

Lemma pext_pdep_truncates_witness :
  zp7_pext_64 (zp7_pdep_64 0x123456789ABCDEF0 0xF0F1F3F70F1F3F7F)
    0xF0F1F3F70F1F3F7F
  = 0x123456789ABCDEF0 mod 2 ^ Z.of_nat (popcount 0xF0F1F3F70F1F3F7F).
Proof.
  refine (proj1 (pext_pdep_truncates 0x123456789ABCDEF0 0xF0F1F3F70F1F3F7F _ _));
    in_range_tac.
Defined.

(** C6.  With 64-bit shifts taken modulo 64, the portable pre-masking
    [a & (((1 << p) & ~(p >> 6)) - 1)] keeps exactly the low [p] bits of [a]
    for every [p] in 0..64; for [p = 64] the mask is all ones and [a] is left
    as it is. *)
Theorem pdep_premask_low_bits (a p : Z) :
  U64.in_range a -> 0 <= p <= 64 ->
  pdep_premask a p = a mod 2 ^ p /\
  (p = 64 ->
   U64.sub (pop_mask p) 1 = 0xFFFFFFFFFFFFFFFF /\ pdep_premask a p = a).
Proof.
  intros Ha Hp. split; [apply pdep_premask_spec; assumption|].
  intros ->. split; [reflexivity|].
  rewrite pdep_premask_spec by assumption. apply Z.mod_small, Ha.
Qed.

Lemma pdep_premask_low_bits_witness :
  pdep_premask 0x123456789ABCDEF0 64 = 0x123456789ABCDEF0 mod 2 ^ 64.
Proof.
  refine (proj1 (pdep_premask_low_bits 0x123456789ABCDEF0 64 _ _));
    [in_range_tac | lia].
Defined.

(** C7.  The multiplier is the bit pattern of -2; for every 64-bit [x] the
    low 64 bits of the carry-less product of [x] and that pattern equal
    [prefix_sum x << 1]; and the HAS_CLMUL build of [zp7_ppp_64] returns the
    same structure as the shift-XOR build for every mask. *)
Theorem clmul_prefix_sum_equiv (x mask : Z) :
  U64.in_range x ->
  neg_2 = 0xFFFFFFFFFFFFFFFE /\
  U64.wrap (clmul x neg_2) = U64.shl (prefix_sum x) 1 /\
  zp7_ppp_64_clmul mask = zp7_ppp_64 mask.
Proof.
  intros Hx. split; [reflexivity|]. split.
  - apply clmul_neg_2_prefix_sum, Hx.
  - unfold zp7_ppp_64_clmul, zp7_ppp_64. f_equal.
    apply ppp_loop_clmul_eq, not_in_range.
Qed.

Lemma clmul_prefix_sum_equiv_witness :
  U64.wrap (clmul 0x123456789ABCDEF0 neg_2)
  = U64.shl (prefix_sum 0x123456789ABCDEF0) 1.
Proof.
  refine (proj1 (proj2 (clmul_prefix_sum_equiv
                          0x123456789ABCDEF0 0xF0F1F3F70F1F3F7F _))).
  in_range_tac.
Defined.

(** C8.  In a run of [zp7_pdep_pre_64] on the structure [zp7_ppp_64 mask],
    for any 64-bit input and mask, the value [x] that enters iteration [i]
    (iterations taken in the order 5, 4, ..., 0) splits into a stationary
    term [x & ~bit] and a moving term [(x & bit) << (1 << i)] without a
    common set bit, so the sum of the loop body equals their bitwise OR. *)
Theorem pdep_loop_add_never_carries (a mask : Z) (i : nat) :
  U64.in_range a -> U64.in_range mask -> (i < 6)%nat ->
  let masks := zp7_ppp_64 mask in
  let x := pdep_state a masks (5 - i) in
  Z.land (pdep_stay masks x i) (pdep_move masks x i) = 0 /\
  pdep_step masks x i = Z.lor (pdep_stay masks x i) (pdep_move masks x i).
Proof.
  intros Ha Hm Hi masks x.
  assert (Hpl : placed mask (fun j => bit_of a (set_below mask j)) (S i) x).
  { replace (S i) with (6 - (5 - i))%nat by lia.
    apply pdep_state_placed; try assumption. lia. }
  split.
  - apply (pdep_step_disjoint mask _ i x Hi Hpl).
  - apply (pdep_step_lor mask _ i x Hi Hpl).
Qed.

Lemma pdep_loop_add_never_carries_witness :
  let masks := zp7_ppp_64 0xF0F1F3F70F1F3F7F in
  let x := pdep_state 0x123456789ABCDEF0 masks (5 - 3) in
  Z.land (pdep_stay masks x 3) (pdep_move masks x 3) = 0 /\
  pdep_step masks x 3 = Z.lor (pdep_stay masks x 3) (pdep_move masks x 3).
Proof.
  apply (pdep_loop_add_never_carries 0x123456789ABCDEF0 0xF0F1F3F70F1F3F7F 3);
    [in_range_tac | in_range_tac | lia].
Defined.

(** C9.  For every 64-bit [x], the SWAR fallback [popcnt_64 x] is the number
    of set bits of [x]. *)
Theorem popcnt_64_counts_set_bits (x : Z) :
  U64.in_range x -> popcnt_64 x = Z.of_nat (popcount x).
Proof. apply popcnt_64_spec. Qed.

Lemma popcnt_64_counts_set_bits_witness :
  popcnt_64 0xF0F1F3F70F1F3F7F = Z.of_nat (popcount 0xF0F1F3F70F1F3F7F).
Proof.
  apply (popcnt_64_counts_set_bits 0xF0F1F3F70F1F3F7F). in_range_tac.
Defined.

(** C10.  The gather does not look at input bits outside the mask:
    [zp7_pext_64 a mask] equals [zp7_pext_64 (a & mask) mask], and two inputs
    that agree on the selected positions give the same result. *)
Theorem pext_ignores_unselected_bits (a b mask : Z) :
  zp7_pext_64 a mask = zp7_pext_64 (Z.land a mask) mask /\
  (Z.land a mask = Z.land b mask -> zp7_pext_64 a mask = zp7_pext_64 b mask).
Proof.
  unfold zp7_pext_64, zp7_pext_pre_64. rewrite zp7_ppp_64_mask. split.
  - rewrite <- Z.land_assoc, Z.land_diag. reflexivity.
  - intros E. rewrite E. reflexivity.
Qed.

Lemma pext_ignores_unselected_bits_witness :
  zp7_pext_64 0x123456789ABCDEF0 0xF0F1F3F70F1F3F7F
  = zp7_pext_64 0x1F3E5E78FAFCDEF0 0xF0F1F3F70F1F3F7F.
Proof.
  refine (proj2 (pext_ignores_unselected_bits
                   0x123456789ABCDEF0 0x1F3E5E78FAFCDEF0 0xF0F1F3F70F1F3F7F) _).
  reflexivity.
Defined.

(** * Further properties of the code *)

Section MoreLemmas.

Lemma bit_of_all_ones j : bit_of 0xFFFFFFFFFFFFFFFF j = (j <? 64)%nat.
Proof.
  unfold bit_of. change 0xFFFFFFFFFFFFFFFF with (Z.ones 64).
  rewrite Z.testbit_ones_nonneg by lia.
  destruct (Nat.ltb_spec j 64); [apply Z.ltb_lt | apply Z.ltb_ge]; lia.
Qed.

Lemma set_below_all_ones j :
  (j <= 64)%nat -> set_below 0xFFFFFFFFFFFFFFFF j = j.
Proof.
  unfold set_below. induction j as [|j IH]; intros Hj; [reflexivity|].
  cbn [count_below]. rewrite IH, bit_of_all_ones by lia.
  replace (j <? 64)%nat with true by (symmetry; apply Nat.ltb_lt; lia). lia.
Qed.

Lemma set_below_le mask j : (set_below mask j <= j)%nat.
Proof. apply count_below_le. Qed.

Lemma count_below_full f n :
  count_below f n = n -> forall j, (j < n)%nat -> f j = true.
Proof.
  induction n as [|n IH]; intros E j Hj; [lia|].
  cbn [count_below] in E. pose proof (count_below_le f n) as L.
  destruct (f n) eqn:Hn.
  - destruct (Nat.eq_dec j n) as [-> | Hne]; [exact Hn|].
    apply IH; lia.
  - lia.
Qed.

(** Each output bit of the gather either copies one fixed input bit or is
    zero, whatever the input. *)
Lemma pext_bit_cases mask q :
  U64.in_range mask ->
  (exists j, forall x, U64.in_range x ->
                       bit_of (zp7_pext_64 x mask) q = bit_of x j) \/
  (forall x, U64.in_range x -> bit_of (zp7_pext_64 x mask) q = false).
Proof.
  intros Hm. destruct (Nat.lt_ge_cases q (popcount mask)) as [Hq | Hq].
  - left. destruct (count_below_select (bit_of mask) 64 q Hq) as (j & Hj & Hmj & E).
    exists j. intros x Hx. rewrite <- E. apply pext_bit_at_rank; assumption.
  - right. intros x Hx. apply pext_bit_high; assumption.
Qed.

Lemma mod_diff_le a b m : (a <= b)%nat -> (b mod m + a <= b + a mod m)%nat.
Proof.
  intros Hab. destruct (Nat.eq_dec m 0) as [-> | Hm]; [simpl; lia|].
  pose proof (Nat.div_mod_eq a m). pose proof (Nat.div_mod_eq b m).
  pose proof (Nat.Div0.div_le_mono a b m Hab) as D.
  pose proof (Nat.mul_le_mono_l _ _ m D). lia.
Qed.

(** Selected bits keep their order at every level, so no two of them ever
    share a position. *)
Lemma pos_lt mask k j j' :
  bit_of mask j = true -> (j < j')%nat -> (pos mask k j < pos mask k j')%nat.
Proof.
  intros Hj Hlt. unfold pos.
  pose proof (unset_below_gap mask j j' Hj Hlt) as G.
  pose proof (unset_below_mono mask j j' (Nat.lt_le_incl _ _ Hlt)) as M.
  pose proof (mod_diff_le (unset_below mask j) (unset_below mask j') (2 ^ k)
                ltac:(lia)) as D.
  pose proof (unset_below_le mask j').
  pose proof (Nat.Div0.mod_le (unset_below mask j') (2 ^ k)).
  pose proof (unset_below_le mask j).
  pose proof (Nat.Div0.mod_le (unset_below mask j) (2 ^ k)).
  lia.
Qed.

Lemma pos_inj mask k j j' :
  bit_of mask j = true -> bit_of mask j' = true ->
  pos mask k j = pos mask k j' -> j = j'.
Proof.
  intros Hj Hj' E. destruct (Nat.lt_trichotomy j j') as [H | [H | H]].
  - pose proof (pos_lt mask k j j' Hj H). lia.
  - exact H.
  - pose proof (pos_lt mask k j' j Hj' H). lia.
Qed.

Lemma pext_state_placed a mask k :
  U64.in_range a -> U64.in_range mask -> (k <= 6)%nat ->
  placed mask (bit_of a) k (pext_state a (zp7_ppp_64 mask) k).
Proof.
  intros Ha Hm Hk. unfold pext_state.
  apply (pext_fold_placed mask (bit_of a) k); [exact Hk|].
  rewrite zp7_ppp_64_mask. split.
  - apply land_in_range_l; [exact Ha | apply in_range_nonneg, Hm].
  - intros q. rewrite bit_of_land, andb_true_iff. split.
    + intros [Hq Hmq]. exists q. rewrite pos_0. repeat split; try assumption.
      destruct (Nat.lt_ge_cases q 64) as [H | H]; [exact H|].
      rewrite (bit_of_high a q Ha H) in Hq. discriminate Hq.
    + intros (j & _ & Hmj & Haj & ->). rewrite pos_0. split; assumption.
Qed.

Lemma digits_sum_testbit n k : digits_sum (Nat.testbit n) k = (n mod 2 ^ k)%nat.
Proof.
  induction k as [|k IH]; cbn [digits_sum].
  - rewrite Nat.pow_0_r, Nat.mod_1_r. reflexivity.
  - rewrite IH, mod_pow2_succ, digit_odd. reflexivity.
Qed.

Lemma digits_sum_ext d d' k :
  (forall i, (i < k)%nat -> d i = d' i) -> digits_sum d k = digits_sum d' k.
Proof.
  induction k as [|k IH]; intros H; cbn [digits_sum]; [reflexivity|].
  rewrite IH by (intros; apply H; lia). rewrite H by lia. reflexivity.
Qed.

End MoreLemmas.

(** X1.  [prefix_sum] is a running XOR: for a 64-bit [x], bit [b] of
    [prefix_sum x] is the XOR of the bits 0..b of [x], and the result is
    again a 64-bit value. *)
Theorem prefix_sum_running_xor (x : Z) (b : nat) :
  U64.in_range x -> (b < 64)%nat ->
  bit_of (prefix_sum x) b = xor_below (bit_of x) (S b) /\
  U64.in_range (prefix_sum x).
Proof.
  intros Hx Hb. split; [apply prefix_sum_spec; assumption|].
  apply prefix_sum_in_range, Hx.
Qed.

Lemma prefix_sum_running_xor_witness :
  bit_of (prefix_sum 0x123456789ABCDEF0) 17
  = xor_below (bit_of 0x123456789ABCDEF0) 18.
Proof.
  refine (proj1 (prefix_sum_running_xor 0x123456789ABCDEF0 17 _ _));
    [in_range_tac | lia].
Defined.

(** X2.  With the mask 0 both the gather and the scatter return 0, whatever
    the input. *)
Theorem zero_mask_gives_zero (a : Z) :
  zp7_pext_64 a 0 = 0 /\ zp7_pdep_64 a 0 = 0.
Proof.
  split.
  - unfold zp7_pext_64, zp7_pext_pre_64.
    rewrite zp7_ppp_64_mask, Z.land_0_r. reflexivity.
  - unfold zp7_pdep_64, zp7_pdep_pre_64. rewrite zp7_ppp_64_mask.
    unfold pdep_premask.
    change (U64.sub (pop_mask (popcnt_64 0)) 1) with 0.
    rewrite Z.land_0_r. reflexivity.
Qed.

(** X3.  With the all-ones mask both the gather and the scatter return
    their 64-bit input unchanged. *)
Theorem all_ones_mask_is_identity (a : Z) :
  U64.in_range a ->
  zp7_pext_64 a 0xFFFFFFFFFFFFFFFF = a /\ zp7_pdep_64 a 0xFFFFFFFFFFFFFFFF = a.
Proof.
  intros Ha.
  assert (Hm : U64.in_range 0xFFFFFFFFFFFFFFFF) by in_range_tac.
  split; apply bit_of_ext64; try assumption.
  - apply pext_in_range; assumption.
  - intros q Hq.
    rewrite <- (set_below_all_ones q) at 1 by lia.
    apply pext_bit_at_rank; try assumption.
    rewrite bit_of_all_ones. apply Nat.ltb_lt, Hq.
  - apply pdep_in_range; assumption.
  - intros q Hq. rewrite pdep_bits, bit_of_all_ones by assumption.
    rewrite set_below_all_ones by lia.
    replace (q <? 64)%nat with true by (symmetry; apply Nat.ltb_lt; exact Hq).
    reflexivity.
Qed.

Lemma all_ones_mask_is_identity_witness :
  zp7_pext_64 0x123456789ABCDEF0 0xFFFFFFFFFFFFFFFF = 0x123456789ABCDEF0 /\
  zp7_pdep_64 0x123456789ABCDEF0 0xFFFFFFFFFFFFFFFF = 0x123456789ABCDEF0.
Proof.
  apply (all_ones_mask_is_identity 0x123456789ABCDEF0). in_range_tac.
Defined.

(** X4.  Scattering the all-ones word gives the mask itself, and gathering
    the mask through itself gives [popcount mask] ones at the low end. *)
Theorem scatter_ones_is_mask (mask : Z) :
  U64.in_range mask ->
  zp7_pdep_64 0xFFFFFFFFFFFFFFFF mask = mask /\
  zp7_pext_64 mask mask = 2 ^ Z.of_nat (popcount mask) - 1.
Proof.
  intros Hm.
  assert (H1 : U64.in_range 0xFFFFFFFFFFFFFFFF) by in_range_tac.
  split.
  - apply bit_of_ext64; [apply pdep_in_range; assumption | exact Hm|].
    intros q Hq. rewrite pdep_bits, bit_of_all_ones by assumption.
    pose proof (set_below_le mask q).
    replace (q <? 64)%nat with true by (symmetry; apply Nat.ltb_lt; exact Hq).
    replace (set_below mask q <? 64)%nat with true
      by (symmetry; apply Nat.ltb_lt; lia).
    rewrite andb_true_r. reflexivity.
  - replace (2 ^ Z.of_nat (popcount mask) - 1)
      with (Z.ones (Z.of_nat (popcount mask))) by (rewrite Z.ones_equiv; lia).
    apply bit_of_ext.
    + apply in_range_nonneg, pext_in_range; assumption.
    + rewrite Z.ones_equiv.
      pose proof (Z.pow_pos_nonneg 2 (Z.of_nat (popcount mask))). lia.
    + intros q. eapply bool_iff_eq; [apply pext_bits; assumption|].
      unfold bit_of at 1. rewrite Z.testbit_ones_nonneg by lia.
      rewrite Z.ltb_lt. split.
      * intros Hq.
        destruct (count_below_select (bit_of mask) 64 q ltac:(unfold popcount in Hq; lia))
          as (j & Hj & Hmj & E).
        exists j. repeat split; try assumption. symmetry. exact E.
      * intros (j & Hj & Hmj & _ & ->).
        pose proof (count_below_lt (bit_of mask) j 64 Hmj Hj).
        unfold popcount, set_below. lia.
Qed.

Lemma scatter_ones_is_mask_witness :
  zp7_pdep_64 0xFFFFFFFFFFFFFFFF 0xF0F1F3F70F1F3F7F = 0xF0F1F3F70F1F3F7F.
Proof.
  refine (proj1 (scatter_ones_is_mask 0xF0F1F3F70F1F3F7F _)). in_range_tac.
Defined.

(** X5.  The gather commutes with the bitwise operations on its input: for
    64-bit inputs, gathering [a | b], [a & b] or [a ^ b] gives the OR, AND or
    XOR of the two gathered values. *)
Theorem pext_bitwise_homomorphism (a b mask : Z) :
  U64.in_range a -> U64.in_range b -> U64.in_range mask ->
  zp7_pext_64 (Z.lor a b) mask
  = Z.lor (zp7_pext_64 a mask) (zp7_pext_64 b mask) /\
  zp7_pext_64 (Z.land a b) mask
  = Z.land (zp7_pext_64 a mask) (zp7_pext_64 b mask) /\
  zp7_pext_64 (Z.lxor a b) mask
  = Z.lxor (zp7_pext_64 a mask) (zp7_pext_64 b mask).
Proof.
  intros Ha Hb Hm.
  pose proof (pext_in_range a mask Ha Hm) as Hpa.
  pose proof (pext_in_range b mask Hb Hm) as Hpb.
  assert (Hor : U64.in_range (Z.lor a b)) by (apply lor_in_range; assumption).
  assert (Hand : U64.in_range (Z.land a b))
    by (apply land_in_range_l; [exact Ha | apply in_range_nonneg, Hb]).
  assert (Hxor : U64.in_range (Z.lxor a b)) by (apply lxor_in_range; assumption).
  repeat split; apply bit_of_ext;
    try (apply in_range_nonneg, pext_in_range; assumption);
    try (apply in_range_nonneg;
         first [apply lor_in_range | apply lxor_in_range]; assumption);
    try (apply Z.land_nonneg; left; apply in_range_nonneg; assumption);
    intros q;
    rewrite ?bit_of_lor, ?bit_of_land, ?bit_of_lxor;
    (destruct (pext_bit_cases mask q Hm) as [(j & H) | H];
     [rewrite !H by assumption;
      rewrite ?bit_of_lor, ?bit_of_land, ?bit_of_lxor; reflexivity
     |rewrite !H by assumption; reflexivity]).
Qed.

Lemma pext_bitwise_homomorphism_witness :
  zp7_pext_64 (Z.lxor 0x123456789ABCDEF0 0x0F0F00FF1234FFFF) 0xF0F1F3F70F1F3F7F
  = Z.lxor (zp7_pext_64 0x123456789ABCDEF0 0xF0F1F3F70F1F3F7F)
           (zp7_pext_64 0x0F0F00FF1234FFFF 0xF0F1F3F70F1F3F7F).
Proof.
  refine (proj2 (proj2 (pext_bitwise_homomorphism
            0x123456789ABCDEF0 0x0F0F00FF1234FFFF 0xF0F1F3F70F1F3F7F _ _ _)));
    in_range_tac.
Defined.

(** X6.  The scatter commutes with the bitwise operations on its input: for
    64-bit inputs, scattering [a | b], [a & b] or [a ^ b] gives the OR, AND
    or XOR of the two scattered values. *)
Theorem pdep_bitwise_homomorphism (a b mask : Z) :
  U64.in_range a -> U64.in_range b -> U64.in_range mask ->
  zp7_pdep_64 (Z.lor a b) mask
  = Z.lor (zp7_pdep_64 a mask) (zp7_pdep_64 b mask) /\
  zp7_pdep_64 (Z.land a b) mask
  = Z.land (zp7_pdep_64 a mask) (zp7_pdep_64 b mask) /\
  zp7_pdep_64 (Z.lxor a b) mask
  = Z.lxor (zp7_pdep_64 a mask) (zp7_pdep_64 b mask).
Proof.
  intros Ha Hb Hm.
  assert (Hor : U64.in_range (Z.lor a b)) by (apply lor_in_range; assumption).
  assert (Hand : U64.in_range (Z.land a b))
    by (apply land_in_range_l; [exact Ha | apply in_range_nonneg, Hb]).
  assert (Hxor : U64.in_range (Z.lxor a b)) by (apply lxor_in_range; assumption).
  pose proof (pdep_in_range a mask Ha Hm) as Hpa.
  pose proof (pdep_in_range b mask Hb Hm) as Hpb.
  repeat split; apply bit_of_ext;
    try (apply in_range_nonneg, pdep_in_range; assumption);
    try (apply in_range_nonneg;
         first [apply lor_in_range | apply lxor_in_range]; assumption);
    try (apply Z.land_nonneg; left; apply in_range_nonneg; assumption);
    intros q;
    rewrite ?bit_of_lor, ?bit_of_land, ?bit_of_lxor;
    rewrite !pdep_bits by assumption;
    rewrite ?bit_of_lor, ?bit_of_land, ?bit_of_lxor;
    destruct (q <? 64)%nat, (bit_of mask q),
      (bit_of a (set_below mask q)), (bit_of b (set_below mask q));
    reflexivity.
Qed.

Lemma pdep_bitwise_homomorphism_witness :
  zp7_pdep_64 (Z.lxor 0x123456789ABCDEF0 0x0F0F00FF1234FFFF) 0xF0F1F3F70F1F3F7F
  = Z.lxor (zp7_pdep_64 0x123456789ABCDEF0 0xF0F1F3F70F1F3F7F)
           (zp7_pdep_64 0x0F0F00FF1234FFFF 0xF0F1F3F70F1F3F7F).
Proof.
  refine (proj2 (proj2 (pdep_bitwise_homomorphism
            0x123456789ABCDEF0 0x0F0F00FF1234FFFF 0xF0F1F3F70F1F3F7F _ _ _)));
    in_range_tac.
Defined.

(** X7.  For every 64-bit value and mask, scattering the gathered value
    gives [value & mask]: the gather followed by the scatter clears exactly
    the unselected bits. *)
Theorem pdep_pext_is_mask_and (value mask : Z) :
  U64.in_range value -> U64.in_range mask ->
  zp7_pdep_64 (zp7_pext_64 value mask) mask = Z.land value mask.
Proof.
  intros Hv Hm.
  pose proof (pext_in_range value mask Hv Hm) as Hp.
  apply bit_of_ext64.
  - apply pdep_in_range; assumption.
  - apply land_in_range_l; [exact Hv | apply in_range_nonneg, Hm].
  - intros q Hq. rewrite pdep_bits, bit_of_land by assumption.
    replace (q <? 64)%nat with true by (symmetry; apply Nat.ltb_lt; exact Hq).
    destruct (bit_of mask q) eqn:Hmq; cbn [andb].
    + rewrite andb_true_r. apply pext_bit_at_rank; assumption.
    + rewrite andb_false_r. reflexivity.
Qed.

Lemma pdep_pext_is_mask_and_witness :
  zp7_pdep_64 (zp7_pext_64 0x123456789ABCDEF0 0xF0F1F3F70F1F3F7F)
    0xF0F1F3F70F1F3F7F
  = Z.land 0x123456789ABCDEF0 0xF0F1F3F70F1F3F7F.
Proof.
  apply (pdep_pext_is_mask_and 0x123456789ABCDEF0 0xF0F1F3F70F1F3F7F);
    in_range_tac.
Defined.

(** X8.  The comment of [zp7_pdep_pre_64], "(mask == -1) is equivalent to
    popcnt(mask) >> 6": for a 64-bit [x], [popcnt_64 x] lies in 0..64, and
    [popcnt_64 x >> 6] is 1 when [x] is all ones and 0 otherwise. *)
Theorem popcnt_shift_detects_all_ones (x : Z) :
  U64.in_range x ->
  0 <= popcnt_64 x <= 64 /\
  U64.shr (popcnt_64 x) 6 = if x =? 0xFFFFFFFFFFFFFFFF then 1 else 0.
Proof.
  intros Hx. rewrite popcnt_64_spec by exact Hx.
  pose proof (popcount_le_64 x) as Hle. split; [lia|].
  unfold U64.shr. change (6 mod 64) with 6.
  rewrite Z.shiftr_div_pow2 by lia. change (2 ^ 6) with 64.
  destruct (Z.eqb_spec x 0xFFFFFFFFFFFFFFFF) as [-> | Hne]; [reflexivity|].
  apply Z.div_small. split; [lia|].
  destruct (Nat.eq_dec (popcount x) 64) as [E | E]; [|lia].
  exfalso. apply Hne. apply bit_of_ext64; [exact Hx | in_range_tac|].
  intros b Hb. rewrite bit_of_all_ones.
  replace (b <? 64)%nat with true by (symmetry; apply Nat.ltb_lt; exact Hb).
  apply (count_below_full (bit_of x) 64 E b Hb).
Qed.

Lemma popcnt_shift_detects_all_ones_witness :
  U64.shr (popcnt_64 0xFFFFFFFFFFFFFFFE) 6 = 0.
Proof.
  refine (proj2 (popcnt_shift_detects_all_ones 0xFFFFFFFFFFFFFFFE _)).
  in_range_tac.
Defined.

(** X9.  The structure returned by [zp7_ppp_64] has six planes; at every
    position [b] in 0..63 the six plane bits, read as binary digits, are the
    number of unset mask bits below [b] (so six planes are enough), and
    plane [i] has its low [2^i] bits clear (the shifts by [2^i] of the two
    loops drop no set bit of a plane). *)
Theorem ppp_planes_encode_count (mask : Z) (b : nat) :
  (b < 64)%nat ->
  length (ppp_bit (zp7_ppp_64 mask)) = 6%nat /\
  digits_sum (fun i => bit_of (nth i (ppp_bit (zp7_ppp_64 mask)) 0) b) 6
  = unset_below mask b /\
  forall i, (i < 6)%nat -> (b < 2 ^ i)%nat ->
    bit_of (nth i (ppp_bit (zp7_ppp_64 mask)) 0) b = false.
Proof.
  intros Hb. split; [apply ppp_loop_length|]. split.
  - rewrite (digits_sum_ext _ (Nat.testbit (unset_below mask b)))
      by (intros i Hi; apply ppp_plane_bit; assumption).
    rewrite digits_sum_testbit. apply Nat.mod_small.
    pose proof (unset_below_le mask b). change (2 ^ 6)%nat with 64%nat. lia.
  - intros i Hi Hlt. rewrite ppp_plane_bit, digit_odd by assumption.
    pose proof (unset_below_le mask b).
    rewrite Nat.div_small by lia. reflexivity.
Qed.

Lemma ppp_planes_encode_count_witness :
  digits_sum
    (fun i => bit_of (nth i (ppp_bit (zp7_ppp_64 0xF0F1F3F70F1F3F7F)) 0) 40) 6
  = unset_below 0xF0F1F3F70F1F3F7F 40.
Proof.
  refine (proj1 (proj2 (ppp_planes_encode_count 0xF0F1F3F70F1F3F7F 40 _))).
  lia.
Defined.

(** X10.  In a run of [zp7_pext_pre_64] on the structure [zp7_ppp_64 mask],
    the value [x] that enters iteration [i] splits into the bits that stay,
    [x & ~bit], and the bits that move, [(x & bit) >> (1 << i)], without a
    common set bit: shifting in increasing order keeps the input bits from
    overlapping, and the OR of the loop body is also their sum. *)
Theorem pext_loop_bits_never_collide (a mask : Z) (i : nat) :
  U64.in_range a -> U64.in_range mask -> (i < 6)%nat ->
  let masks := zp7_ppp_64 mask in
  let x := pext_state a masks i in
  let bit := nth i (ppp_bit masks) 0 in
  let stay := Z.land x (U64.not bit) in
  let move := U64.shr (Z.land x bit) (Z.shiftl 1 (Z.of_nat i)) in
  Z.land stay move = 0 /\ pext_step masks x i = stay + move.
Proof.
  intros Ha Hm Hi masks x bit stay move.
  assert (Hpl : placed mask (bit_of a) i x)
    by (apply pext_state_placed; try assumption; lia).
  destruct Hpl as [Hr Hx].
  assert (D : Z.land stay move = 0).
  { apply bit_of_ext.
    - apply Z.land_nonneg. left. apply Z.land_nonneg. left.
      apply in_range_nonneg, Hr.
    - lia.
    - intros q.
      replace (bit_of 0 q) with false
        by (unfold bit_of; rewrite Z.bits_0; reflexivity).
      unfold stay, move. rewrite shiftl_1_nat.
      rewrite bit_of_land, bit_of_land, bit_of_not, bit_of_shr, bit_of_land
        by (apply pow2_lt_64, Hi).
      destruct (bit_of x q) eqn:H1; [|reflexivity].
      destruct (bit_of x (q + 2 ^ i)) eqn:H2; [|rewrite !andb_false_r; reflexivity].
      apply Hx in H1. destruct H1 as (j1 & Hj1 & Hm1 & _ & E1).
      apply Hx in H2. destruct H2 as (j2 & Hj2 & Hm2 & _ & E2).
      unfold bit, masks. rewrite E1 at 2. rewrite E2.
      rewrite !plane_at_pos by assumption.
      pose proof (pos_succ mask i j1) as S1.
      pose proof (pos_succ mask i j2) as S2.
      destruct (Nat.odd (unset_below mask j1 / 2 ^ i)) eqn:O1;
        [rewrite !andb_false_r; reflexivity|].
      destruct (Nat.odd (unset_below mask j2 / 2 ^ i)) eqn:O2;
        [|rewrite !andb_false_r; reflexivity].
      exfalso.
      assert (E : j1 = j2) by (apply (pos_inj mask (S i)); try assumption; lia).
      subst j2. congruence. }
  split; [exact D|].
  rewrite Z.add_nocarry_lxor, Z.lxor_lor by exact D. reflexivity.
Qed.

Lemma pext_loop_bits_never_collide_witness :
  let masks := zp7_ppp_64 0xF0F1F3F70F1F3F7F in
  let x := pext_state 0x123456789ABCDEF0 masks 2 in
  let bit := nth 2 (ppp_bit masks) 0 in
  let stay := Z.land x (U64.not bit) in
  let move := U64.shr (Z.land x bit) (Z.shiftl 1 (Z.of_nat 2)) in
  Z.land stay move = 0 /\ pext_step masks x 2 = stay + move.
Proof.
  apply (pext_loop_bits_never_collide 0x123456789ABCDEF0 0xF0F1F3F70F1F3F7F 2);
    [in_range_tac | in_range_tac | lia].
Defined.

(** ** The build with the processor's instructions *)

Section NativeBuild.

Lemma bzhi_premask a p :
  U64.in_range a -> 0 <= p <= 64 -> bzhi_u64 a p = pdep_premask a p.
Proof.
  intros Ha Hp. rewrite pdep_premask_spec by assumption.
  unfold bzhi_u64. cbv zeta. rewrite (Z.mod_small p 256) by lia.
  destruct (Z.ltb_spec p 64) as [H | H]; [reflexivity|].
  replace p with 64 by lia. symmetry. apply Z.mod_small, Ha.
Qed.

Lemma zp7_ppp_64_clmul_eq m : zp7_ppp_64_clmul m = zp7_ppp_64 m.
Proof.
  unfold zp7_ppp_64_clmul, zp7_ppp_64. f_equal.
  apply ppp_loop_clmul_eq, not_in_range.
Qed.

Lemma pext_native_eq a m : zp7_pext_64_native a m = zp7_pext_64 a m.
Proof. unfold zp7_pext_64_native. rewrite zp7_ppp_64_clmul_eq. reflexivity. Qed.

Lemma pdep_native_eq a m :
  U64.in_range a -> U64.in_range m ->
  zp7_pdep_64_native a m = zp7_pdep_64 a m.
Proof.
  intros Ha Hm. unfold zp7_pdep_64_native, zp7_pdep_64.
  rewrite zp7_ppp_64_clmul_eq.
  unfold zp7_pdep_pre_64_native, zp7_pdep_pre_64.
  rewrite zp7_ppp_64_mask. f_equal.
  rewrite popcnt_64_spec by exact Hm. unfold popcnt64.
  apply bzhi_premask; [exact Ha|].
  pose proof (popcount_le_64 m). lia.
Qed.

End NativeBuild.

(** X11.  The build that test.c compiles (HAS_CLMUL, HAS_BZHI, HAS_POPCNT,
    the three instructions taken with their manual semantics) computes the
    same gather and scatter as the portable build, for all 64-bit inputs;
    in particular BZHI at the population count and the portable pre-mask
    agree. *)
Theorem native_build_agrees (a mask : Z) :
  U64.in_range a -> U64.in_range mask ->
  zp7_pext_64_native a mask = zp7_pext_64 a mask /\
  zp7_pdep_64_native a mask = zp7_pdep_64 a mask /\
  bzhi_u64 a (popcnt64 mask) = pdep_premask a (popcnt_64 mask).
Proof.
  intros Ha Hm. split; [apply pext_native_eq|].
  split; [apply pdep_native_eq; assumption|].
  rewrite popcnt_64_spec by exact Hm. unfold popcnt64.
  apply bzhi_premask; [exact Ha|]. pose proof (popcount_le_64 mask). lia.
Qed.

Lemma native_build_agrees_witness :
  zp7_pdep_64_native 0x123456789ABCDEF0 0xFFFFFFFFFFFFFFFF
  = zp7_pdep_64 0x123456789ABCDEF0 0xFFFFFFFFFFFFFFFF.
Proof.
  refine (proj1 (proj2 (native_build_agrees
            0x123456789ABCDEF0 0xFFFFFFFFFFFFFFFF _ _))); in_range_tac.
Defined.

(** ** The random number generator of the test program *)

Section Generator.

Lemma shr_in_range_any x n : U64.in_range x -> U64.in_range (U64.shr x n).
Proof.
  intros Hx. pose proof (Z.mod_pos_bound n 64 ltac:(lia)) as Hn.
  replace (U64.shr x n) with (U64.shr x (Z.of_nat (Z.to_nat (n mod 64)))).
  - apply shr_in_range; [lia | exact Hx].
  - unfold U64.shr. rewrite Z2Nat.id by lia. rewrite Z.mod_mod by lia.
    reflexivity.
Qed.

Lemma rotate_left_in_range x k :
  U64.in_range x -> U64.in_range (Harness.rotate_left x k).
Proof.
  intros Hx. unfold Harness.rotate_left.
  apply lor_in_range; [apply shl_in_range | apply shr_in_range_any, Hx].
Qed.

Lemma rotate_left_bit x (k b : nat) :
  U64.in_range x -> (0 < k < 64)%nat -> (b < 64)%nat ->
  bit_of (Harness.rotate_left x (Z.of_nat k)) b
  = bit_of x ((b + 64 - k) mod 64).
Proof.
  intros Hx Hk Hb. unfold Harness.rotate_left.
  replace (U64.sub 64 (Z.of_nat k)) with (Z.of_nat (64 - k))
    by (unfold U64.sub, U64.wrap; rewrite Z.mod_small; lia).
  rewrite bit_of_lor, bit_of_shl, bit_of_shr by lia.
  replace (b <? 64)%nat with true by (symmetry; apply Nat.ltb_lt; exact Hb).
  cbn [andb]. destruct (Nat.leb_spec k b) as [H | H]; cbn [andb orb].
  - rewrite (bit_of_high x (b + (64 - k))) by (try assumption; lia).
    rewrite orb_false_r. f_equal.
    replace (b + 64 - k)%nat with ((b - k) + 1 * 64)%nat by lia.
    rewrite Nat.Div0.mod_add. symmetry. apply Nat.mod_small. lia.
  - f_equal. rewrite Nat.mod_small by lia. lia.
Qed.

Lemma rotate_index b k :
  (b < 64)%nat -> (0 < k < 64)%nat ->
  (((b + 64 - (64 - k)) mod 64 + 64 - k) mod 64 = b)%nat.
Proof.
  intros Hb Hk. destruct (Nat.lt_ge_cases (b + k) 64) as [H | H].
  - replace (b + 64 - (64 - k))%nat with (b + k)%nat by lia.
    rewrite (Nat.mod_small (b + k)) by lia.
    replace (b + k + 64 - k)%nat with (b + 1 * 64)%nat by lia.
    rewrite Nat.Div0.mod_add. apply Nat.mod_small. lia.
  - replace (b + 64 - (64 - k))%nat with ((b + k - 64) + 1 * 64)%nat by lia.
    rewrite Nat.Div0.mod_add. rewrite (Nat.mod_small (b + k - 64)) by lia.
    replace (b + k - 64 + 64 - k)%nat with b by lia.
    apply Nat.mod_small. lia.
Qed.

Lemma add_cancel_r x y z :
  U64.in_range x -> U64.in_range y -> U64.add x z = U64.add y z -> x = y.
Proof.
  unfold U64.in_range, U64.add, U64.wrap. intros Hx Hy H.
  pose proof (Z.div_mod (x + z) (2 ^ 64) ltac:(lia)) as E1.
  pose proof (Z.div_mod (y + z) (2 ^ 64) ltac:(lia)) as E2.
  rewrite H in E1. lia.
Qed.

Lemma add_cancel_l x y z :
  U64.in_range x -> U64.in_range y -> U64.add z x = U64.add z y -> x = y.
Proof.
  intros Hx Hy H. apply (add_cancel_r x y z Hx Hy).
  unfold U64.add in *. rewrite (Z.add_comm x), (Z.add_comm y). exact H.
Qed.

Lemma sub_cancel_r x y z :
  U64.in_range x -> U64.in_range y -> U64.sub x z = U64.sub y z -> x = y.
Proof.
  intros Hx Hy H. apply (add_cancel_r x y (- z) Hx Hy).
  unfold U64.add, U64.sub in *. exact H.
Qed.

Lemma lxor_cancel_r x y z : Z.lxor x z = Z.lxor y z -> x = y.
Proof.
  intros H. apply (f_equal (fun t => Z.lxor t z)) in H.
  rewrite !Z.lxor_assoc, Z.lxor_nilpotent, !Z.lxor_0_r in H. exact H.
Qed.

Lemma rand_next_value_in_range s : U64.in_range (fst (Harness.rand_next s)).
Proof. apply wrap_in_range. Qed.

End Generator.

(** X12.  [rotate_left x k], for a 64-bit [x] and [0 < k < 64], is the
    rotation of [x] by [k] positions towards the high end: output bit [b]
    is input bit [(b + 64 - k) mod 64], the result is a 64-bit value, and
    rotating on by [64 - k] gives [x] back. *)
Theorem rotate_left_rotates (x k : Z) (b : nat) :
  U64.in_range x -> 0 < k < 64 -> (b < 64)%nat ->
  bit_of (Harness.rotate_left x k) b = bit_of x ((b + 64 - Z.to_nat k) mod 64) /\
  U64.in_range (Harness.rotate_left x k) /\
  Harness.rotate_left (Harness.rotate_left x k) (64 - k) = x.
Proof.
  intros Hx Hk Hb.
  assert (Ek : k = Z.of_nat (Z.to_nat k)) by lia.
  assert (Hk' : (0 < Z.to_nat k < 64)%nat) by lia.
  set (n := Z.to_nat k) in *. rewrite Ek. clearbody n. clear Ek Hk k.
  split; [apply rotate_left_bit; assumption|].
  split; [apply rotate_left_in_range, Hx|].
  apply bit_of_ext64; [apply rotate_left_in_range, rotate_left_in_range, Hx | exact Hx|].
  intros q Hq.
  replace (64 - Z.of_nat n) with (Z.of_nat (64 - n)) by lia.
  rewrite rotate_left_bit by (try apply rotate_left_in_range; try assumption; lia).
  rewrite rotate_left_bit
    by (try assumption; apply Nat.mod_upper_bound; lia).
  rewrite rotate_index by assumption. reflexivity.
Qed.

Lemma rotate_left_rotates_witness :
  Harness.rotate_left (Harness.rotate_left 0x123456789ABCDEF0 13) (64 - 13)
  = 0x123456789ABCDEF0.
Proof.
  refine (proj2 (proj2 (rotate_left_rotates 0x123456789ABCDEF0 13 5 _ _ _)));
    [in_range_tac | lia | lia].
Defined.

(** X13.  [rand_next] returns a 64-bit word, keeps a generator of four
    64-bit words such a generator, and loses no information: two such
    generators that it maps to the same generator are the same. *)
Theorem rand_next_reversible (s1 s2 : Harness.rand_ctx_t) :
  Harness.ctx_in_range s1 -> Harness.ctx_in_range s2 ->
  U64.in_range (fst (Harness.rand_next s1)) /\
  Harness.ctx_in_range (snd (Harness.rand_next s1)) /\
  (snd (Harness.rand_next s1) = snd (Harness.rand_next s2) -> s1 = s2).
Proof.
  intros (Ha1 & Hb1 & Hc1 & Hd1) (Ha2 & Hb2 & Hc2 & Hd2).
  split; [apply wrap_in_range|]. split.
  - unfold Harness.ctx_in_range, Harness.rand_next. cbn.
    repeat split; try apply wrap_in_range.
    + apply Z.lxor_nonneg. split; intros _;
        [apply in_range_nonneg, rotate_left_in_range, Hc1
        |apply in_range_nonneg, Hb1].
    + apply (lxor_in_range _ _ Hb1 (rotate_left_in_range _ 13 Hc1)).
  - destruct s1 as [a1 b1 c1 d1], s2 as [a2 b2 c2 d2].
    unfold Harness.rand_next. cbn in *. intros H.
    injection H as Ea Eb Ec Ed.
    rewrite Ea in Ed.
    apply add_cancel_r in Ed; try apply wrap_in_range.
    rewrite Ed in Ec.
    apply add_cancel_r in Ec; try assumption. subst d2.
    apply add_cancel_r in Eb; try assumption. subst c2.
    apply lxor_cancel_r in Ea. subst b2.
    apply sub_cancel_r in Ed; try assumption. subst a2.
    reflexivity.
Qed.

Lemma rand_next_reversible_witness :
  U64.in_range (fst (Harness.rand_next Harness.rand_seed)).
Proof.
  refine (proj1 (rand_next_reversible Harness.rand_seed Harness.rand_seed _ _));
    unfold Harness.ctx_in_range; cbn; repeat split; lia.
Defined.

(** ** The test program never reports a failure *)

Section TestProgram.

Lemma test_input_ok m r t :
  U64.in_range m -> 0 <= t -> t + 2 < 2 ^ 64 ->
  exists r', Harness.test_input m (r, t) = inr (r', t + 2).
Proof.
  intros Hm Ht Hlt. unfold Harness.test_input.
  pose proof (rand_next_value_in_range r) as Hin.
  destruct (Harness.rand_next r) as [input r']. cbn [fst] in Hin.
  exists r'. cbv zeta.
  unfold Harness.pext_u64, Harness.pdep_u64.
  rewrite pext_native_eq, pdep_native_eq by assumption.
  rewrite <- pext_eq_ref, <- pdep_eq_ref by assumption.
  rewrite !Z.eqb_refl. cbn [negb]. do 2 f_equal.
  unfold U64.add, U64.wrap. rewrite (Z.mod_small (t + 1)) by lia.
  rewrite Z.mod_small by lia. lia.
Qed.

Lemma test_loop_ok n m : forall r t,
  U64.in_range m -> 0 <= t -> t + 2 * Z.of_nat n < 2 ^ 64 ->
  exists r',
    fold_left (fun x (_ : nat) => Harness.and_then x (Harness.test_input m))
      (seq 0 n) (inr (r, t))
    = inr (r', t + 2 * Z.of_nat n).
Proof.
  induction n as [|n IH]; intros r t Hm Ht Hlt.
  - exists r. cbn [seq fold_left]. do 2 f_equal. lia.
  - rewrite seq_S, fold_left_app. cbn [fold_left Nat.add].
    destruct (IH r t Hm Ht ltac:(lia)) as [r1 E1]. rewrite E1.
    cbn [Harness.and_then].
    destruct (test_input_ok m r1 (t + 2 * Z.of_nat n) Hm ltac:(lia) ltac:(lia))
      as [r2 E2].
    exists r2. rewrite E2. do 2 f_equal. lia.
Qed.

Lemma test_mask_ok m r t :
  U64.in_range m -> 0 <= t -> t + 64 < 2 ^ 64 ->
  exists r', Harness.test_mask m (r, t) = inr (r', t + 64).
Proof.
  intros Hm Ht Hlt. unfold Harness.test_mask.
  destruct (test_loop_ok 32 m r t Hm Ht ltac:(lia)) as [r' E].
  exists r'. rewrite E. reflexivity.
Qed.

Lemma test_round_ok r t :
  0 <= t -> t + 256 < 2 ^ 64 ->
  exists r', Harness.test_round (r, t) = inr (r', t + 256).
Proof.
  intros Ht Hlt. unfold Harness.test_round.
  pose proof (rand_next_value_in_range r) as H0.
  destruct (Harness.rand_next r) as [mask r0]. cbn [fst] in H0.
  pose proof (rand_next_value_in_range r0) as H1.
  destruct (Harness.rand_next r0) as [v_1 r1]. cbn [fst] in H1.
  pose proof (rand_next_value_in_range r1) as H2.
  destruct (Harness.rand_next r1) as [v_2 r2]. cbn [fst] in H2.
  cbv zeta. cbn [fold_left Harness.and_then].
  assert (Hm2 : U64.in_range (Z.lor (Z.lor mask v_1) v_2))
    by (repeat apply lor_in_range; assumption).
  destruct (test_mask_ok mask r2 t H0 Ht ltac:(lia)) as [r3 E3].
  rewrite E3. cbn [Harness.and_then].
  destruct (test_mask_ok (U64.not mask) r3 (t + 64) (not_in_range _)
              ltac:(lia) ltac:(lia)) as [r4 E4].
  rewrite E4. cbn [Harness.and_then].
  destruct (test_mask_ok _ r4 (t + 64 + 64) Hm2 ltac:(lia) ltac:(lia))
    as [r5 E5].
  rewrite E5. cbn [Harness.and_then].
  destruct (test_mask_ok (U64.not (Z.lor (Z.lor mask v_1) v_2)) r5
              (t + 64 + 64 + 64) (not_in_range _) ltac:(lia) ltac:(lia))
    as [r6 E6].
  exists r6. rewrite E6. do 2 f_equal. lia.
Qed.

Lemma test_rounds_ok (n : N) (r : Harness.rand_ctx_t) :
  (n <= Harness.N_TESTS)%N ->
  exists r',
    N.iter n (fun x => Harness.and_then x Harness.test_round) (inr (r, 0))
    = inr (r', 256 * Z.of_N n).
Proof.
  apply (N.iter_ind _ (fun x => Harness.and_then x Harness.test_round)
           (inr (r, 0))
           (fun n x => (n <= Harness.N_TESTS)%N ->
                       exists r', x = inr (r', 256 * Z.of_N n))).
  - intros _. exists r. reflexivity.
  - intros k x IH Hk. unfold Harness.N_TESTS in *.
    destruct (IH ltac:(lia)) as [r1 ->]. cbn [Harness.and_then].
    destruct (test_round_ok r1 (256 * Z.of_N k) ltac:(lia) ltac:(lia))
      as [r2 E].
    exists r2. rewrite E. do 2 f_equal. lia.
Qed.

End TestProgram.

(** X14.  The test program, with the processor's instructions taken with
    their manual semantics, never reports a failure: whatever words the
    generator produces, every comparison of [zp7_pext_64] and [zp7_pdep_64]
    with PEXT and PDEP succeeds, so [main] counts
    2^20 * 4 * 32 * 2 = 268435456 tests and returns 0. *)
Theorem main_passes :
  Harness.main = Harness.Passed 268435456 /\
  Harness.exit_code Harness.main = 0.
Proof.
  assert (E : Harness.main = Harness.Passed 268435456).
  { unfold Harness.main.
    destruct (test_rounds_ok Harness.N_TESTS Harness.rand_init (N.le_refl _))
      as [r' E].
    rewrite E. reflexivity. }
  split; [exact E | rewrite E; reflexivity].
Qed.

(** X15.  The scatter does not look at input bits at index
    [popcount mask] or above: two 64-bit inputs with the same low
    [popcount mask] bits give the same result. *)
Theorem pdep_ignores_high_bits (a b mask : Z) :
  U64.in_range a -> U64.in_range b -> U64.in_range mask ->
  a mod 2 ^ Z.of_nat (popcount mask) = b mod 2 ^ Z.of_nat (popcount mask) ->
  zp7_pdep_64 a mask = zp7_pdep_64 b mask.
Proof.
  intros Ha Hb Hm E.
  apply bit_of_ext64; try (apply pdep_in_range; assumption).
  intros q Hq. rewrite !pdep_bits by assumption.
  destruct (bit_of mask q) eqn:Hmq; [|rewrite !andb_false_r; reflexivity].
  f_equal.
  pose proof (count_below_lt (bit_of mask) q 64 Hmq Hq) as Hlt.
  fold (set_below mask q) in Hlt. fold (popcount mask) in Hlt.
  apply (f_equal (fun t => bit_of t (set_below mask q))) in E.
  rewrite !bit_of_mod_pow2 in E.
  replace (set_below mask q <? popcount mask)%nat with true in E
    by (symmetry; apply Nat.ltb_lt; exact Hlt).
  exact E.
Qed.

Lemma pdep_ignores_high_bits_witness :
  zp7_pdep_64 0x123456789ABCDEF0 0x0F0F0F0F0F0F0F0F
  = zp7_pdep_64 0xFFFFFFFF9ABCDEF0 0x0F0F0F0F0F0F0F0F.
Proof.
  apply (pdep_ignores_high_bits
           0x123456789ABCDEF0 0xFFFFFFFF9ABCDEF0 0x0F0F0F0F0F0F0F0F);
    [in_range_tac | in_range_tac | in_range_tac | reflexivity].
Defined.
